(** * Display helpers of k9s ([internal/render/helpers.go])

    A shallow embedding of the formatting helpers of the render package and
    the properties of their natural-language specification.

    Go strings are byte sequences: they are modelled by [string] (a list of
    8-bit [ascii] characters), [len] by [String.length], [+] by
    [String.append].  Go's [int] and [int64] are modelled by [Z].

    A [float64] is modelled by the rational number it denotes; every
    arithmetic operation computes the exact rational result and rounds it to
    the nearest number with a 53-bit significand, ties to even ([RN]).  The
    exponent range is not bounded: on the values that the helpers compute,
    which stay far from overflow and from subnormal numbers, this is the
    arithmetic of IEEE 754 binary64; [RN_agrees_with_binary64] compares it
    with Rocq's primitive floats on samples. *)

From Stdlib Require Import ZArith Lia List Ascii String.
From Stdlib Require Import QArith Qpower Qround Qabs Qminmax Lqa.
From Stdlib Require Import Floats Uint63.
From stdpp Require Import base list sorting strings gmap.

Local Open Scope string_scope.
Local Open Scope Z_scope.

(** ** Sentinel strings *)

(** Modelled from the spec: the sentinel constants [UnknownValue], [NAValue],
    [MissingValue] and [ZeroValue] are declared in another file of the
    render package.  The spec names them the "unknown", "not applicable",
    "missing" and "zero" markers and requires them pairwise distinct. *)
Definition UnknownValue : string := "<unknown>".
Definition NAValue : string := "n/a".
Definition MissingValue : string := "<none>".
Definition ZeroValue : string := "0".

(** ** Go library functions on strings *)

(** [len(s)], as a Go [int]. *)
Definition len (s : string) : Z := Z.of_nat (String.length s).

(** [strings.Join]. *)
Fixpoint strings_Join (ss : list string) (sep : string) : string :=
  match ss with
  | [] => ""
  | [s] => s
  | s :: rest => s +:+ sep +:+ strings_Join rest sep
  end.

(** [strings.Repeat(s, n)] for a count [n >= 0]. *)
Fixpoint repeat_nat (s : string) (n : nat) : string :=
  match n with
  | O => ""
  | S n' => s +:+ repeat_nat s n'
  end.

Definition strings_Repeat (s : string) (count : Z) : string :=
  repeat_nat s (Z.to_nat count).

(** [sort.Strings]: sorts in increasing byte-wise lexicographic order.  The
    order is total and antisymmetric, so the sorted arrangement of a list is
    unique and every correct sorting algorithm returns it. *)
Definition sort_Strings (kk : list string) : list string :=
  merge_sort String.le kk.

(** ** Go maps

    The content of a [map[string]V] is a finite map [gmap string V].  A
    [for k, v := range m] loop visits every entry once in an order chosen by
    the runtime: an iteration order of [m] is any arrangement of its entries. *)
Definition iteration {V} (m : gmap string V) (it : list (string * V)) : Prop :=
  it ≡ₚ map_to_list m.

(** [m[k]] on a [map[string]string]: the zero value when the key is absent. *)
Definition map_index (m : gmap string string) (k : string) : string :=
  default "" (m !! k).

(** ** KeyValueSerializer *)

(** [toSelector]: the entries are appended in the order the [range] loop
    yields them, [it]. *)
Definition toSelector (it : list (string * string)) : string :=
  strings_Join (map (fun kv => kv.1 +:+ "=" +:+ kv.2) it) ",".

(** The second loop of [mapToStr]: [i] is the index of the head of [kk],
    [n] is [len(kk)] of the whole slice. *)
Fixpoint mapToStr_loop (m : gmap string string) (n i : Z) (kk : list string)
    (bb : string) : string :=
  match kk with
  | [] => bb
  | k :: rest =>
      let bb := bb +:+ (k +:+ "=" +:+ map_index m k) in
      let bb := if i <? n - 1 then bb +:+ "," else bb in
      mapToStr_loop m n (i + 1) rest bb
  end.

(** [mapToStr]: [it] is the order in which [range m] yields the entries. *)
Definition mapToStr (m : gmap string string) (it : list (string * string))
    : string :=
  if Z.of_nat (size m) =? 0 then ""
  else
    let kk := map fst it in
    let kk := sort_Strings kk in
    mapToStr_loop m (Z.of_nat (length kk)) 0 kk "".

(** Values of Go's [any] as far as [mapToIfc] tells them apart. *)
#[local] Set Warnings "-register-all".
Inductive any : Type :=
| AnyNil
| AnyString (s : string)
| AnyInt (n : Z)
| AnyBool (b : bool)
| AnyMap (entries : gmap string any).
#[local] Set Warnings "register-all".

(** The loop of [mapToIfc]. *)
Fixpoint mapToIfc_loop (mm : gmap string any) (n i : Z) (kk : list string)
    (s : string) : string :=
  match kk with
  | [] => s
  | k :: rest =>
      match mm !! k with
      | Some (AnyString str) =>
          let s := s +:+ (k +:+ "=" +:+ str) in
          let s := if i <? n - 1 then s +:+ " " else s in
          mapToIfc_loop mm n (i + 1) rest s
      | _ => mapToIfc_loop mm n (i + 1) rest s
      end
  end.

(** [mapToIfc]: when [m] holds a [map[string]any], [it] is the order in
    which [range mm] yields its entries. *)
Definition mapToIfc (m : any) (it : list (string * any)) : string :=
  match m with
  | AnyMap mm =>
      if Z.of_nat (size mm) =? 0 then ""
      else
        let kk := sort_Strings (map fst it) in
        mapToIfc_loop mm (Z.of_nat (length kk)) 0 kk ""
  | _ => ""
  end.

(** ** TemporalFormatter *)

(** A [time.Time] instant: seconds and nanoseconds since January 1, year 1,
    00:00:00 UTC, the zero instant of Go's [time] package. *)
Record Time : Type := mkTime { sec : Z; nsec : Z }.

(** [Time.IsZero]. *)
Definition IsZero (t : Time) : bool := (sec t =? 0) && (nsec t =? 0).

Definition minDuration : Z := - 2 ^ 63.
Definition maxDuration : Z := 2 ^ 63 - 1.

(** [Time.Sub]: a [time.Duration] in nanoseconds, saturated to [int64]. *)
Definition Sub (t u : Time) : Z :=
  let d := (sec t - sec u) * 1000000000 + (nsec t - nsec u) in
  if d <? minDuration then minDuration
  else if maxDuration <? d then maxDuration
  else d.

Section Temporal.
(** [time.Parse(time.RFC3339, s)] and [duration.HumanDuration] belong to
    the Go library and to apimachinery; [now] is the instant that
    [time.Since] reads from the wall clock. *)
Variable time_Parse_RFC3339 : string -> option Time.
Variable HumanDuration : Z -> string.
Variable now : Time.

Definition time_Since (t : Time) : Z := Sub now t.

Definition ToAge (t : Time) : string :=
  if IsZero t then UnknownValue
  else HumanDuration (time_Since t).

Definition toAgeHuman (s : string) : string :=
  if String.eqb s "" then UnknownValue
  else
    match time_Parse_RFC3339 s with
    | None => NAValue
    | Some t => HumanDuration (time_Since t)
    end.
End Temporal.

(** ** LayoutFitter *)

Definition byte_val (c : ascii) : Z := Z.of_N (N_of_ascii c).

(** [s[:n]] and [s[n:]]. *)
Fixpoint take_bytes (n : nat) (s : string) : string :=
  match n, s with
  | S n', String c s' => String c (take_bytes n' s')
  | _, _ => ""
  end.

Fixpoint drop_bytes (n : nat) (s : string) : string :=
  match n, s with
  | S n', String _ s' => drop_bytes n' s'
  | _, _ => s
  end.

(** [string(tview.SemigraphicsHorizontalEllipsis)]: U+2026 in UTF-8. *)
Definition ellipsis : string :=
  String (ascii_of_nat 226) (String (ascii_of_nat 128) (String (ascii_of_nat 166) "")).

Section LayoutFitter.
(** [runewidth.Truncate] belongs to the library go-runewidth.  What it
    returns depends on the width tables of the library, on the grapheme
    clusters of the string and on the East Asian setting of the process
    (the locale, or the variable RUNEWIDTH_EASTASIAN): it is a parameter of
    [Truncate] and [Pad]. *)
Variable runewidth_Truncate : string -> Z -> string -> string.

(** [Truncate]. *)
Definition Truncate (str : string) (width : Z) : string :=
  runewidth_Truncate str width ellipsis.

(** [Pad]. *)
Definition Pad (s : string) (width : Z) : string :=
  if len s =? width then s
  else if width <? len s then Truncate s width
  else s +:+ strings_Repeat " " (width - len s).
End LayoutFitter.


(** ** float64 arithmetic *)

Definition pow2 (e : Z) : Q := Qpower 2 e.

(** The exponent of a positive rational: [pow2 (flog2 q) <= q < pow2 (flog2 q + 1)]. *)
Definition flog2 (q : Q) : Z :=
  let e0 := Z.log2 (Qnum q) - Z.log2 (Zpos (Qden q)) in
  if Qle_bool (pow2 e0) q then e0 else e0 - 1.

(** Rounding to the nearest integer, ties to even. *)
Definition rne (x : Q) : Z :=
  let f := Qfloor x in
  match Qcompare (x - inject_Z f) (1 # 2) with
  | Lt => f
  | Gt => f + 1
  | Eq => if Z.even f then f else f + 1
  end.

(** Rounding to the nearest binary64 number, ties to even. *)
Definition RN (q : Q) : Q :=
  if Qeq_bool q 0 then 0%Q
  else
    let e := flog2 (Qabs q) in
    let u := pow2 (e - 52) in
    (inject_Z (rne (q / u)) * u)%Q.

Definition fadd (x y : Q) : Q := RN (x + y).
Definition fsub (x y : Q) : Q := RN (x - y).
Definition fmul (x y : Q) : Q := RN (x * y).
Definition fdiv (x y : Q) : Q := RN (x / y).

Definition Qltb (x y : Q) : bool := negb (Qle_bool y x).

(** The conversions [float64(v)] of an [int64] or [uint64]. *)
Definition float64_of_int (v : Z) : Q := RN (inject_Z v).

(** A decimal literal [m * 10^e] of the source, as the compiler rounds it. *)
Definition literal (m e : Z) : Q := RN (inject_Z m * Qpower 10 e).

(** [math.Floor], on finite values. *)
Definition math_Floor (x : Q) : Q := inject_Z (Qfloor x).

(** [math.Frexp] on finite values: [x = frac * 2^exp] with [1/2 <= |frac| < 1]. *)
Definition math_Frexp (x : Q) : Q * Z :=
  if Qeq_bool x 0 then (0%Q, 0)
  else let ki := flog2 (Qabs x) + 1 in ((x / pow2 ki)%Q, ki).

(** The constants of [math/log.go]. *)
Definition Ln2Hi : Q := literal 693147180369123816490 (-21).
Definition Ln2Lo : Q := literal 190821492927058770002 (-30).
Definition L1 : Q := literal 6666666666666735130 (-19).
Definition L2 : Q := literal 3999999999940941908 (-19).
Definition L3 : Q := literal 2857142874366239149 (-19).
Definition L4 : Q := literal 2222219843214978396 (-19).
Definition L5 : Q := literal 1818357216161805012 (-19).
Definition L6 : Q := literal 1531383769920937332 (-19).
Definition L7 : Q := literal 1479819860511658591 (-19).

(** [math.Sqrt2 / 2], an exact constant expression rounded once. *)
Definition HSqrt2 : Q :=
  RN (inject_Z 141421356237309504880168872420969807856967187537694
      * Qpower 10 (-50) / 2).

(** The polynomial part of [math.Log]: the value for the reduced argument
    [f] and the exponent [k]. *)
Definition log_reduced (f k : Q) : Q :=
  let s := fdiv f (fadd 2 f) in
  let s2 := fmul s s in
  let s4 := fmul s2 s2 in
  let t1 := fmul s2 (fadd L1 (fmul s4 (fadd L3 (fmul s4 (fadd L5 (fmul s4 L7)))))) in
  let t2 := fmul s4 (fadd L2 (fmul s4 (fadd L4 (fmul s4 L6)))) in
  let R := fadd t1 t2 in
  let hfsq := fmul (fmul (1 # 2) f) f in
  fsub (fmul k Ln2Hi)
       (fsub (fsub hfsq (fadd (fmul s (fadd hfsq R)) (fmul k Ln2Lo))) f).

(** The argument reduction of [math.Log]: [x = (1 + f) * 2^k] with
    [sqrt(2)/2 <= 1 + f < sqrt(2)]. *)
Definition log_reduce (x : Q) : Q * Z :=
  let '(f1, ki) := math_Frexp x in
  let '(f1, ki) := if Qltb f1 HSqrt2 then (fmul f1 2, ki - 1) else (f1, ki) in
  (fsub f1 1, ki).

(** [math.Log] of Go's library, for a finite [x > 0] (the special cases
    for NaN, infinities, zero and negative numbers are left out). *)
Definition math_Log (x : Q) : Q :=
  let '(f, ki) := log_reduce x in
  log_reduced f (float64_of_int ki).

(** [math.Pow(x, y)] for an integral [y]: Go's loop multiplies by squares
    of [x], which is exact for the powers of two that [humanateBytes] asks
    for. *)
Definition math_Pow (x : Q) (y : Z) : Q := RN (Qpower x y).

(** ** Formatting numbers ([strconv], [fmt]) *)

Definition digit_char (d : Z) : ascii := ascii_of_nat (48 + Z.to_nat d).

Fixpoint digits_fuel (fuel : nat) (n : Z) (acc : string) : string :=
  match fuel with
  | O => acc
  | S fuel' =>
      let acc' := String (digit_char (n mod 10)) acc in
      if n <? 10 then acc' else digits_fuel fuel' (n / 10) acc'
  end.

(** [strconv.FormatUint(n, 10)] for [n >= 0]; a number has no more decimal
    digits than binary ones. *)
Definition FormatUint (n : Z) : string :=
  digits_fuel (S (Z.to_nat (Z.log2 n))) n "".

(** [strconv.Itoa] and the verb [%d]. *)
Definition Itoa (n : Z) : string :=
  if n <? 0 then "-" +:+ FormatUint (- n) else FormatUint n.

(** The verb [%.<prec>f] on a finite value: the exact value is rounded to
    [prec] decimals, ties to even. *)
Definition Sprintf_f (prec : nat) (x : Q) : string :=
  let m := rne (Qabs x * inject_Z (10 ^ Z.of_nat prec)) in
  let ds := FormatUint m in
  let ds := repeat_nat "0" (S prec - String.length ds) +:+ ds in
  let n := (String.length ds - prec)%nat in
  let body := match prec with
              | O => ds
              | _ => take_bytes n ds +:+ "." +:+ drop_bytes n ds
              end in
  if Qltb x 0 then "-" +:+ body else body.

(** [strings.TrimPrefix] and [strings.TrimSuffix]. *)
Definition strings_TrimPrefix (s prefix : string) : string :=
  if String.prefix prefix s then drop_bytes (String.length prefix) s else s.

Definition strings_HasSuffix (s suffix : string) : bool :=
  (String.length suffix <=? String.length s)%nat
  && String.eqb (drop_bytes (String.length s - String.length suffix) s) suffix.

Definition strings_TrimSuffix (s suffix : string) : string :=
  if strings_HasSuffix s suffix
  then take_bytes (String.length s - String.length suffix) s
  else s.

(** ** ByteHumanizer, DecimalScaler, RatioAnnotator *)

(** [uint64(v)] of an [int64]. *)
Definition uint64_of_int64 (v : Z) : Z := v mod 2 ^ 64.

(** [sizes[i]]: [None] stands for the run-time panic of an index out of
    range. *)
Definition index_sizes (sizes : list string) (i : Z) : option string :=
  if i <? 0 then None else nth_error sizes (Z.to_nat i).

Definition logn (n b : Q) : Q := fdiv (math_Log n) (math_Log b).

(** The scale exponent [int(e)] of [humanateBytes]. *)
Definition scale_exponent (s : Z) (base : Q) : Z :=
  Qfloor (math_Floor (logn (float64_of_int s) base)).

(** The value [math.Floor(x/p*10+0.5) / 10] of [humanateBytes], for the
    converted count [x] and the power [p] of the base. *)
Definition scaled_value (x p : Q) : Q :=
  fdiv (math_Floor (fadd (fmul (fdiv x p) 10) (1 # 2))) 10.

Definition humanateBytes (s : Z) (base : Q) (sizes : list string)
    : option string :=
  if s <? 10 then Some (Itoa s +:+ " B")
  else
    let e := scale_exponent s base in
    match index_sizes sizes e with
    | None => None
    | Some suffix =>
        let val := scaled_value (float64_of_int s) (math_Pow base e) in
        let valStr :=
          if Qltb val 10 then Sprintf_f 1 val else Sprintf_f 0 val in
        let valStr := strings_TrimSuffix valStr ".0" in
        Some (valStr +:+ suffix)
    end.

Definition sizes_1024 : list string := [""; "K"; "M"; "G"; "T"; "P"; "E"].

Definition humanizeBytes (v : Z) : option string :=
  if v =? 0 then Some ZeroValue
  else humanateBytes (uint64_of_int64 v) 1024 sizes_1024.

(** The percentage [(%.0f%%)] of [v] in [l]. *)
Definition pct_str (v l : Z) : string :=
  let pct := fmul (fdiv (float64_of_int v) (float64_of_int l)) 100 in
  "(" +:+ Sprintf_f 0 pct +:+ "%)".

Definition memPct (v l : Z) : option string :=
  if l <=? 0 then humanizeBytes v
  else
    match humanizeBytes v, humanizeBytes l with
    | Some vStr, Some lStr => Some (vStr +:+ "/" +:+ lStr +:+ pct_str v l)
    | _, _ => None
    end.

(** The second byte [ret[1]] of a string of length 3. *)
Definition byte_at_1 (s : string) : option ascii :=
  match s with
  | String _ (String c _) => Some c
  | _ => None
  end.

Definition decimal (v : Z) : string :=
  let vf := fdiv (float64_of_int v) 1000 in
  let vf := if Qltb vf 0 then 0%Q else vf in
  if Qltb vf (literal 1 (-2)) then "0"
  else if Qltb vf 1 then
    let ret := "." +:+ strings_TrimPrefix (Sprintf_f 2 vf) "0." in
    if (len ret =? 3) && negb (bool_decide (byte_at_1 ret = Some "0"%char))
    then strings_TrimSuffix ret "0"
    else ret
  else if Qltb vf 10 then
    strings_TrimSuffix (Sprintf_f 1 vf) ".0"
  else Sprintf_f 0 vf.

Definition decimalPct (v l : Z) : string :=
  if l <=? 0 then decimal v
  else decimal v +:+ "/" +:+ decimal l +:+ pct_str v l.

(** ** Further helpers of the file *)

(** Go's fixed-width integers: the value of a [bits]-bit two's complement
    integer that an exact result wraps to. *)
Definition wrap (bits : Z) (z : Z) : Z :=
  (z + 2 ^ (bits - 1)) mod 2 ^ bits - 2 ^ (bits - 1).

(** The loop of [runesToNum], from the last rune to the first: [rr] holds the
    runes still to visit, last one first.  A rune is an [int32], [r] and [m]
    are [int64]. *)
Fixpoint runesToNum_loop (rr : list Z) (r m : Z) : Z :=
  match rr with
  | [] => r
  | c :: rest =>
      let v := wrap 32 (c - 48) in
      let r := wrap 64 (r + wrap 64 (v * m)) in
      let m := wrap 64 (m * 10) in
      runesToNum_loop rest r m
  end.

(** [runesToNum]. *)
Definition runesToNum (rr : list Z) : Z := runesToNum_loop (rev rr) 0 1.

(** [[]rune(s)] for a string of ASCII characters: one rune per byte. *)
Definition ascii_runes (s : string) : list Z :=
  map byte_val (list_ascii_of_string s).

(** [IntToStr] and [PrintPerc]. *)
Definition IntToStr (p : Z) : string := Itoa p.
Definition PrintPerc (p : Z) : string := Itoa p +:+ "%".

(** [blank]. *)
Fixpoint blank (ss : list string) : bool :=
  match ss with
  | [] => true
  | s :: rest => if String.eqb s "" then blank rest else false
  end.

(** The strings of [ss] that are not empty, in order: the slice [b] of
    [join]. *)
Definition non_blank (ss : list string) : list string :=
  List.filter (fun s => negb (String.eqb s "")) ss.

(** [join]: the capacity that the code computes for [buff.Grow] does not
    show in the result and is left out. *)
Definition join (ss : list string) (sep : string) : string :=
  match ss with
  | [] => ""
  | [s] => s
  | _ =>
      match non_blank ss with
      | [] => ""
      | b0 :: rest => fold_left (fun buff s => buff +:+ sep +:+ s) rest b0
      end
  end.

(** [check], [missing], [na] and [naStrings]. *)
Definition check (s sub : string) : string :=
  if String.eqb s "" then sub else s.

Definition missing (s : string) : string := check s MissingValue.

Definition na (s : string) : string := check s NAValue.

Definition naStrings (ss : list string) : string :=
  match ss with
  | [] => NAValue
  | _ => strings_Join ss ","
  end.

(** ** Definitions of the further properties *)

(** The entries of a map in the order of its sorted keys. *)
Definition sorted_entries (m : gmap string string) (it : list (string * string))
    : list (string * string) :=
  map (fun k => (k, map_index m k)) (sort_Strings (map fst it)).

(** The keys of [mm] that hold a plain string, and their [k=v] pairs. *)
Definition holds_string (mm : gmap string any) (k : string) : bool :=
  match mm !! k with
  | Some (AnyString _) => true
  | _ => false
  end.

Definition string_pairs (mm : gmap string any) (kk : list string) : list string :=
  flat_map (fun k => match mm !! k with
                     | Some (AnyString str) => [k +:+ "=" +:+ str]
                     | _ => []
                     end) kk.

(** The space that [mapToIfc] leaves at the end: some pair is emitted and
    the last key holds no string. *)
Definition trailing_space (mm : gmap string any) (kk : list string) : string :=
  match string_pairs mm kk with
  | [] => ""
  | _ => if holds_string mm (List.last kk "") then "" else " "
  end.

(** What the loop of [mapToIfc] appends for the keys [kk]. *)
Fixpoint mapToIfc_body (mm : gmap string any) (kk : list string) : string :=
  match kk with
  | [] => ""
  | k :: rest =>
      match mm !! k with
      | Some (AnyString str) =>
          (k +:+ "=" +:+ str) +:+ (match rest with [] => "" | _ => " " end)
          +:+ mapToIfc_body mm rest
      | _ => mapToIfc_body mm rest
      end
  end.

(** The decimal digits of [n], least significant first, as [digits_fuel]
    produces them. *)
Fixpoint lsd_digits (fuel : nat) (n : Z) : list Z :=
  match fuel with
  | O => []
  | S fuel' =>
      n mod 10 :: (if n <? 10 then [] else lsd_digits fuel' (n / 10))
  end.

(** ** Definitions used in the proofs *)

(** The [k=v] rendering of one entry. *)
Definition pair_str (kv : string * string) : string := kv.1 +:+ "=" +:+ kv.2.

(** A parser for the UTC, whole-second strings [YYYY-MM-DDTHH:MM:SSZ] only,
    used as a sample instance of the parser parameter. *)
Definition digit_val (c : ascii) : option Z :=
  let n := Z.of_N (N_of_ascii c) in
  if (48 <=? n) && (n <=? 57) then Some (n - 48) else None.

(** The number written by a list of decimal digits. *)
Fixpoint digits_val (cs : list ascii) (acc : Z) : option Z :=
  match cs with
  | [] => Some acc
  | c :: cs' =>
      match digit_val c with
      | Some d => digits_val cs' (acc * 10 + d)
      | None => None
      end
  end.

(** Days from January 1 of year 1 to January 1 of year [y], and to the first
    day of month [m] of year [y], in the proleptic Gregorian calendar. *)
Definition days_before_year (y : Z) : Z :=
  let y1 := y - 1 in 365 * y1 + y1 / 4 - y1 / 100 + y1 / 400.

Definition is_leap (y : Z) : bool :=
  ((y mod 4 =? 0) && negb (y mod 100 =? 0)) || (y mod 400 =? 0).

Definition days_before_month (y m : Z) : Z :=
  let base := nth (Z.to_nat (m - 1))
                [0; 31; 59; 90; 120; 151; 181; 212; 243; 273; 304; 334] 0 in
  if (2 <? m) && is_leap y then base + 1 else base.

Definition parse_utc_seconds (s : string) : option Time :=
  match list_ascii_of_string s with
  | [y1; y2; y3; y4; "-"%char; m1; m2; "-"%char; d1; d2; "T"%char;
     h1; h2; ":"%char; n1; n2; ":"%char; s1; s2; "Z"%char] =>
      match digits_val [y1; y2; y3; y4] 0, digits_val [m1; m2] 0,
            digits_val [d1; d2] 0, digits_val [h1; h2] 0,
            digits_val [n1; n2] 0, digits_val [s1; s2] 0 with
      | Some y, Some m, Some d, Some h, Some n, Some sc =>
          if (1 <=? m) && (m <=? 12) && (1 <=? d) && (d <=? 31)
             && (h <? 24) && (n <? 60) && (sc <? 60)
          then Some (mkTime
                 ((days_before_year y + days_before_month y m + (d - 1)) * 86400
                  + h * 3600 + n * 60 + sc) 0)
          else None
      | _, _, _, _, _, _ => None
      end
  | _ => None
  end.

(** *** A condition of go-runewidth on sample text

    Modelled from the library, which is not under src/: the two settings of
    [runewidth.Condition] (East Asian width off and on, with
    [StrictEmojiNeutral] on as by default), rune by rune and with the main
    blocks of the width tables.  The library itself walks grapheme clusters
    and has longer tables.  This condition stands for the library in the
    witnesses and in the runs on concrete strings only, which are made of
    ASCII characters, U+2026, U+65E5 and invalid bytes: there every cluster
    is one rune and the tables below decide as the library's. *)

(** [utf8.RuneError], the replacement character. *)
Definition RuneError : Z := 0xFFFD.

(** A continuation byte within the accepted range [lo..hi]. *)
Definition accept (lo hi : Z) (c : ascii) : bool :=
  (lo <=? byte_val c) && (byte_val c <=? hi).

(** [utf8.DecodeRuneInString]: the first rune of [s] and its width in bytes.
    An invalid or incomplete encoding gives [(RuneError, 1)], the empty
    string [(RuneError, 0)].  The accepted ranges of the second byte are
    those of Go's [acceptRanges] table. *)
Definition DecodeRuneInString (s : string) : Z * nat :=
  match s with
  | EmptyString => (RuneError, 0%nat)
  | String c0 s1 =>
      let b0 := byte_val c0 in
      if b0 <? 0x80 then (b0, 1%nat)
      else if (b0 <? 0xC2) || (0xF4 <? b0) then (RuneError, 1%nat)
      else if b0 <? 0xE0 then
        match s1 with
        | String c1 _ =>
            if accept 0x80 0xBF c1
            then (Z.lor (Z.shiftl (Z.land b0 0x1F) 6)
                        (Z.land (byte_val c1) 0x3F), 2%nat)
            else (RuneError, 1%nat)
        | _ => (RuneError, 1%nat)
        end
      else if b0 <? 0xF0 then
        let lo := if b0 =? 0xE0 then 0xA0 else 0x80 in
        let hi := if b0 =? 0xED then 0x9F else 0xBF in
        match s1 with
        | String c1 (String c2 _) =>
            if accept lo hi c1 && accept 0x80 0xBF c2
            then (Z.lor (Z.lor (Z.shiftl (Z.land b0 0x0F) 12)
                               (Z.shiftl (Z.land (byte_val c1) 0x3F) 6))
                        (Z.land (byte_val c2) 0x3F), 3%nat)
            else (RuneError, 1%nat)
        | _ => (RuneError, 1%nat)
        end
      else
        let lo := if b0 =? 0xF0 then 0x90 else 0x80 in
        let hi := if b0 =? 0xF4 then 0x8F else 0xBF in
        match s1 with
        | String c1 (String c2 (String c3 _)) =>
            if accept lo hi c1 && accept 0x80 0xBF c2 && accept 0x80 0xBF c3
            then (Z.lor (Z.lor (Z.lor (Z.shiftl (Z.land b0 0x07) 18)
                                      (Z.shiftl (Z.land (byte_val c1) 0x3F) 12))
                               (Z.shiftl (Z.land (byte_val c2) 0x3F) 6))
                        (Z.land (byte_val c3) 0x3F), 4%nat)
            else (RuneError, 1%nat)
        | _ => (RuneError, 1%nat)
        end
  end.

(** The runes of a string in order, each with the bytes that encode it.
    [fuel] bounds the number of runes; [String.length s] always suffices. *)
Fixpoint runes_fuel (fuel : nat) (s : string) : list (Z * string) :=
  match fuel with
  | O => []
  | S fuel' =>
      match DecodeRuneInString s with
      | (_, O) => []
      | (r, size) => (r, take_bytes size s) :: runes_fuel fuel' (drop_bytes size s)
      end
  end.

Definition runes (s : string) : list (Z * string) :=
  runes_fuel (String.length s) s.

Definition inTable (r : Z) (t : list (Z * Z)) : bool :=
  existsb (fun iv => (fst iv <=? r) && (r <=? snd iv)) t.

Definition combining : list (Z * Z) :=
  [(0x0300, 0x036F); (0x0483, 0x0489); (0x1AB0, 0x1AFF); (0x1DC0, 0x1DFF);
   (0x20D0, 0x20F0); (0xFE20, 0xFE2F)].

Definition nonprint : list (Z * Z) :=
  [(0x0000, 0x001F); (0x007F, 0x009F); (0x00AD, 0x00AD); (0x070F, 0x070F);
   (0x180B, 0x180E); (0x200B, 0x200F); (0x2028, 0x202E); (0x206A, 0x206F);
   (0xD800, 0xDFFF); (0xFEFF, 0xFEFF); (0xFFF9, 0xFFFB); (0xFFFE, 0xFFFF)].

Definition doublewidth : list (Z * Z) :=
  [(0x1100, 0x115F); (0x2E80, 0x303E); (0x3041, 0x3247); (0x3250, 0x4DBF);
   (0x4E00, 0xA4C6); (0xA960, 0xA97C); (0xAC00, 0xD7A3); (0xF900, 0xFAFF);
   (0xFE10, 0xFE19); (0xFE30, 0xFE6B); (0xFF01, 0xFF60); (0xFFE0, 0xFFE6);
   (0x1F300, 0x1F64F); (0x1F900, 0x1F9FF); (0x20000, 0x2FFFD);
   (0x30000, 0x3FFFD)].

Definition narrow : list (Z * Z) :=
  [(0x0020, 0x007E); (0x00A2, 0x00A3); (0x00A5, 0x00A6); (0x00AC, 0x00AC);
   (0x00AF, 0x00AF); (0x27E6, 0x27ED); (0x2985, 0x2986)].

(** Characters of ambiguous width, two columns wide with the East Asian
    setting: the ranges that hold U+2026 and U+FFFD among them. *)
Definition ambiguous : list (Z * Z) :=
  [(0x00A1, 0x00A1); (0x00A4, 0x00A4); (0x00A7, 0x00A8); (0x2010, 0x2010);
   (0x2013, 0x2016); (0x2018, 0x2019); (0x201C, 0x201D); (0x2020, 0x2022);
   (0x2024, 0x2027); (0x2030, 0x2030); (0xFFFD, 0xFFFD)].

(** [Condition.RuneWidth]. *)
Definition Condition_RuneWidth (eastAsian : bool) (r : Z) : Z :=
  if (r <? 0) || (0x10FFFF <? r) then 0
  else if negb eastAsian then
    if r <? 0x20 then 0
    else if ((0x7F <=? r) && (r <=? 0x9F)) || (r =? 0xAD) then 0
    else if r <? 0x300 then 1
    else if inTable r narrow then 1
    else if inTable r nonprint || inTable r combining then 0
    else if inTable r doublewidth then 2
    else 1
  else
    if inTable r nonprint || inTable r combining then 0
    else if inTable r narrow then 1
    else if inTable r ambiguous || inTable r doublewidth then 2
    else 1.

(** [Condition.StringWidth], rune by rune. *)
Definition Condition_StringWidth (eastAsian : bool) (s : string) : Z :=
  fold_right (fun c acc => Condition_RuneWidth eastAsian (fst c) + acc) 0 (runes s).

(** The loop of [Condition.Truncate]: the bytes [s[:pos]] kept when the
    remaining runes are [cs], the budget is [w] and the width so far is
    [width]. *)
Fixpoint truncate_loop (eastAsian : bool) (cs : list (Z * string)) (w width : Z)
    : string :=
  match cs with
  | [] => ""
  | c :: cs' =>
      let chWidth := Condition_RuneWidth eastAsian (fst c) in
      if w <? width + chWidth then ""
      else snd c +:+ truncate_loop eastAsian cs' w (width + chWidth)
  end.

(** [Condition.Truncate(s, w, tail)]. *)
Definition Condition_Truncate (eastAsian : bool) (s : string) (w : Z)
    (tail : string) : string :=
  if Condition_StringWidth eastAsian s <=? w then s
  else
    let w := w - Condition_StringWidth eastAsian tail in
    truncate_loop eastAsian (runes s) w 0 +:+ tail.




(** Closed intervals of rationals, and the images of the float64
    operations on them: each bound is the rounding of an exact bound. *)
Record itv : Type := mkItv { lo : Q; hi : Q }.

Definition In_itv (x : Q) (I : itv) : Prop := (lo I <= x /\ x <= hi I)%Q.

Definition pt (q : Q) : itv := mkItv q q.

Definition min4 (a b c d : Q) : Q := Qmin (Qmin a b) (Qmin c d).
Definition max4 (a b c d : Q) : Q := Qmax (Qmax a b) (Qmax c d).

Definition iadd (I J : itv) : itv :=
  mkItv (RN (lo I + lo J)) (RN (hi I + hi J)).
Definition isub (I J : itv) : itv :=
  mkItv (RN (lo I - hi J)) (RN (hi I - lo J)).
Definition imul (I J : itv) : itv :=
  mkItv (RN (min4 (lo I * lo J) (lo I * hi J) (hi I * lo J) (hi I * hi J)))
        (RN (max4 (lo I * lo J) (lo I * hi J) (hi I * lo J) (hi I * hi J))).
Definition idiv (I J : itv) : itv :=
  mkItv (RN (min4 (lo I / lo J) (lo I / hi J) (hi I / lo J) (hi I / hi J)))
        (RN (max4 (lo I / lo J) (lo I / hi J) (hi I / lo J) (hi I / hi J))).

(** The image of [log_reduced] on intervals. *)
Definition ilog_reduced (F K : itv) : itv :=
  let s := idiv F (iadd (pt 2) F) in
  let s2 := imul s s in
  let s4 := imul s2 s2 in
  let t1 := imul s2 (iadd (pt L1) (imul s4 (iadd (pt L3) (imul s4 (iadd (pt L5) (imul s4 (pt L7))))))) in
  let t2 := imul s4 (iadd (pt L2) (imul s4 (iadd (pt L4) (imul s4 (pt L6))))) in
  let R := iadd t1 t2 in
  let hfsq := imul (imul (pt (1 # 2)) F) F in
  isub (imul K (pt Ln2Hi))
       (isub (isub hfsq (iadd (imul s (iadd hfsq R)) (imul K (pt Ln2Lo)))) F).

(** The interval of the significand after the reduction of [math.Log]. *)
Definition F1_itv : itv := mkItv HSqrt2 (RN (HSqrt2 * 2)).
Definition F_itv : itv := isub F1_itv (pt 1).

(** The exponents of the reduction, the values of [math.Log] and of [logn]
    for the arguments from 10 to 2^64. *)
Definition K_itv : itv := mkItv (RN 3) (RN 64).
Definition Log_itv : itv := ilog_reduced F_itv K_itv.
Definition Log1024 : Q := math_Log 1024.
Definition logn_itv : itv := idiv Log_itv (pt Log1024).

(** The interval of [logn(x, 1024)], the least scale exponent and the
    greatest scaled value for the counts [x] whose reduction has the
    exponent [k]. *)
Abbreviation logn_itv_k k :=
  (idiv (ilog_reduced F_itv (pt (float64_of_int k))) (pt Log1024)).

Abbreviation least_exponent k := (Qfloor (lo (logn_itv_k k))).

Abbreviation greatest_value k :=
  (scaled_value (HSqrt2 * 2 * pow2 k) (math_Pow 1024 (least_exponent k))).

(** The greatest scale exponent for the counts whose reduction has the
    exponent [k]. *)
Abbreviation greatest_exponent k := (Qfloor (hi (logn_itv_k k))).

(** The counts from 725 to 1023, whose reduction has the exponent 10 of
    the first scaled counts. *)
Definition upper_counts : list Z := map Z.of_nat (seq 725 299).

(** The exponents 3 to 64 of the reduction. *)
Definition exponents : list Z := map Z.of_nat (seq 3 62).

(** The rational that a primitive binary64 float denotes (0 for NaN and
    the infinities), and sample computations in both arithmetics. *)
Definition binary64_value (f : float) : Q :=
  match Prim2SF f with
  | S754_finite s m e =>
      let v := (inject_Z (Zpos m) * Qpower 2 e)%Q in
      if s then (- v)%Q else v
  | _ => 0%Q
  end.

#[local] Set Warnings "-inexact-float".
Definition binary64_samples : list (float * Q) :=
  [ ((996 / 1000)%float, fdiv 996 1000);
    ((15 / 1000)%float, fdiv 15 1000);
    ((1536 / 1024 * 10 + 0.5)%float, fadd (fmul (fdiv 1536 1024) 10) (1 # 2));
    ((1 / 3 - 1)%float, fsub (fdiv 1 3) 1);
    ((50 / 3 * 100)%float, fmul (fdiv 50 3) 100);
    (of_uint63 9223372036854775807%uint63, float64_of_int (2 ^ 63 - 1));
    (of_uint63 9007199254740993%uint63, float64_of_int (2 ^ 53 + 1));
    (6.93147180369123816490e-01%float, Ln2Hi);
    (1.90821492927058770002e-10%float, Ln2Lo);
    (6.666666666666735130e-01%float, L1);
    (1.479819860511658591e-01%float, L7);
    (0.01%float, literal 1 (-2)) ].
#[local] Set Warnings "inexact-float".

(** The strings of decimal digits. *)
Fixpoint all_digits (s : string) : bool :=
  match s with
  | EmptyString => true
  | String c s' => (48 <=? byte_val c) && (byte_val c <=? 57) && all_digits s'
  end.

(** The number that a string of digits denotes. *)
Fixpoint digits_value (s : string) (acc : Z) : Z :=
  match s with
  | EmptyString => acc
  | String c s' => digits_value s' (acc * 10 + (byte_val c - 48))
  end.

(** The part of a string before the first point and, when there is a
    point, the part after it. *)
Fixpoint split_point (s : string) : string * option string :=
  match s with
  | EmptyString => ("", None)
  | String c s' =>
      if (byte_val c =? 46) then ("", Some s')
      else let '(a, b) := split_point s' in (String c a, b)
  end.

(** The numeric value of a decimal numeral: digits, at most one point, at
    least one digit. *)
Definition numeric_value (s : string) : option Q :=
  match split_point s with
  | (ip, None) =>
      if all_digits ip && negb (String.eqb ip "")
      then Some (inject_Z (digits_value ip 0)) else None
  | (ip, Some fp) =>
      if all_digits ip && all_digits fp && negb (String.eqb (ip +:+ fp) "")
      then Some (inject_Z (digits_value ip 0)
                 + inject_Z (digits_value fp 0)
                   / inject_Z (10 ^ Z.of_nat (String.length fp)))%Q
      else None
  end.

(** The rendering of [decimal] from one unit up to ten, for a value of
    [m] tenths, and the numbers of tenths from 10 to 100. *)
Abbreviation one_decimal m :=
  (strings_TrimSuffix (Sprintf_f 1 (inject_Z m / 10)) ".0").

Definition tenths : list Z := map Z.of_nat (seq 10 91).

(** The rendering of [decimal] from a hundredth up to one unit, for a
    value of [m] hundredths, and the numbers of hundredths from 1 to 99. *)
Abbreviation two_decimals m :=
  (let ret := "." +:+ strings_TrimPrefix (Sprintf_f 2 (inject_Z m / 100)) "0." in
   if (len ret =? 3) && negb (bool_decide (byte_at_1 ret = Some "0"%char))
   then strings_TrimSuffix ret "0"
   else ret).

Definition hundredths : list Z := map Z.of_nat (seq 1 99).

(** The number that [decimal] prints for [v] thousandths, by tier: zero,
    hundredths, tenths, units. *)
Definition printed_value (v : Z) : Q :=
  if v <=? 9 then 0
  else if v <=? 995 then rne (fdiv (float64_of_int v) 1000 * 100) # 100
  else if v <=? 9999 then rne (fdiv (float64_of_int v) 1000 * 10) # 10
  else inject_Z (rne (fdiv (float64_of_int v) 1000)).

(** * Properties *)

(** ** KeyValueSerializer *)

Lemma sort_Strings_Permutation (l1 l2 : list string) :
  l1 ≡ₚ l2 -> sort_Strings l1 = sort_Strings l2.
Proof.
  intros Hp. unfold sort_Strings.
  apply (Sorted_unique String.le); try apply Sorted_merge_sort; try apply _.
  rewrite !merge_sort_Permutation. exact Hp.
Qed.

Lemma iteration_keys {V} (m : gmap string V) it1 it2 :
  iteration m it1 -> iteration m it2 -> map fst it1 ≡ₚ map fst it2.
Proof.
  unfold iteration. intros H1 H2.
  apply Permutation_map. rewrite H1, H2. reflexivity.
Qed.

Lemma iteration_empty {V} (it : list (string * V)) : iteration ∅ it -> it = [].
Proof.
  unfold iteration. rewrite map_to_list_empty.
  intros H. apply Permutation_nil_r in H. exact H.
Qed.

Lemma iteration_singleton {V} (m : gmap string V) it1 it2 :
  (size m <= 1)%nat -> iteration m it1 -> iteration m it2 -> it1 = it2.
Proof.
  unfold iteration. intros Hs H1 H2.
  assert (Hl : (length (map_to_list m) <= 1)%nat)
    by (rewrite length_map_to_list; exact Hs).
  destruct (map_to_list m) as [|x [|y l]]; simpl in Hl; try lia.
  - apply Permutation_nil_r in H1, H2. congruence.
  - apply Permutation_singleton_r in H1, H2. congruence.
Qed.

(** C1 (as amended): [mapToStr] is a function of the map content alone: any
    two iteration orders of the same map give the same bytes.  [toSelector]
    joins the [k=v] pairs in iteration order: two iteration orders give the
    same pairs up to their arrangement, and the same bytes when the map has
    at most one entry.  For the empty map both return the empty string. *)
Theorem serialization_content_determined (m : gmap string string)
    (it1 it2 : list (string * string)) :
  iteration m it1 -> iteration m it2 ->
  mapToStr m it1 = mapToStr m it2
  /\ toSelector it1 = strings_Join (map pair_str it1) ","
  /\ toSelector it2 = strings_Join (map pair_str it2) ","
  /\ map pair_str it1 ≡ₚ map pair_str it2
  /\ ((size m <= 1)%nat -> toSelector it1 = toSelector it2)
  /\ (m = ∅ -> mapToStr m it1 = "" /\ toSelector it1 = "").
Proof.
  intros H1 H2. repeat split.
  - unfold mapToStr. destruct (Z.of_nat (size m) =? 0); [reflexivity|].
    cbv zeta. rewrite (sort_Strings_Permutation _ _ (iteration_keys m _ _ H1 H2)).
    reflexivity.
  - apply Permutation_map. unfold iteration in *. rewrite H1, H2. reflexivity.
  - intros Hs. rewrite (iteration_singleton m it1 it2 Hs H1 H2). reflexivity.
  - subst m. unfold mapToStr. rewrite map_size_empty. reflexivity.
  - subst m. rewrite (iteration_empty it1 H1). reflexivity.
Qed.

Lemma serialization_content_determined_witness :
  let m : gmap string string := list_to_map [("a", "b"); ("c", "d")] in
  mapToStr m [("a", "b"); ("c", "d")] = mapToStr m [("c", "d"); ("a", "b")]
  /\ mapToStr m [("c", "d"); ("a", "b")] = "a=b,c=d".
Proof.
  intros m.
  assert (Hit : forall it, it ≡ₚ [("a", "b"); ("c", "d")] -> iteration m it).
  { intros it Hp. unfold iteration, m. rewrite Hp.
    symmetry. apply map_to_list_to_map. simpl.
    apply (bool_decide_unpack _). vm_compute. reflexivity. }
  split.
  - apply (serialization_content_determined m); apply Hit;
      [reflexivity | apply perm_swap].
  - vm_compute. reflexivity.
Defined.

(** C1 (as stated) fails for [toSelector]: two iteration orders of the same
    two-entry map give different bytes. *)
Lemma toSelector_depends_on_iteration_order :
  let m : gmap string string := list_to_map [("a", "b"); ("c", "d")] in
  iteration m [("a", "b"); ("c", "d")]
  /\ iteration m [("c", "d"); ("a", "b")]
  /\ toSelector [("a", "b"); ("c", "d")] = "a=b,c=d"
  /\ toSelector [("c", "d"); ("a", "b")] = "c=d,a=b"
  /\ toSelector [("a", "b"); ("c", "d")] <> toSelector [("c", "d"); ("a", "b")].
Proof.
  intros m.
  assert (Hit : forall it, it ≡ₚ [("a", "b"); ("c", "d")] -> iteration m it).
  { intros it Hp. unfold iteration, m. rewrite Hp.
    symmetry. apply map_to_list_to_map. simpl.
    apply (bool_decide_unpack _). vm_compute. reflexivity. }
  repeat split; try (apply Hit; (reflexivity || apply perm_swap)).
  vm_compute. discriminate.
Qed.

(** C8 fails on the code: the separator is appended by index, so when the
    greatest key holds a non-string value the output ends with a space. *)
Lemma mapToIfc_trailing_separator :
  let mm : gmap string any := list_to_map [("a", AnyString "x"); ("b", AnyInt 1)] in
  iteration mm [("a", AnyString "x"); ("b", AnyInt 1)]
  /\ mapToIfc (AnyMap mm) [("a", AnyString "x"); ("b", AnyInt 1)] = "a=x ".
Proof.
  intros mm. split.
  - unfold iteration, mm. symmetry. apply map_to_list_to_map.
    apply (bool_decide_unpack _). vm_compute. reflexivity.
  - vm_compute. reflexivity.
Qed.

(** ** TemporalFormatter *)

(** C7: a zero timestamp and the empty string give the "unknown" sentinel; a
    non-empty string that fails to parse gives the "not applicable" sentinel,
    which differs from the "unknown" one. *)
Theorem temporal_sentinels
    (parse : string -> option Time) (human : Z -> string) (now : Time)
    (t : Time) (s : string) :
  IsZero t = true -> s <> "" -> parse s = None ->
  ToAge human now t = UnknownValue
  /\ toAgeHuman parse human now "" = UnknownValue
  /\ toAgeHuman parse human now s = NAValue
  /\ toAgeHuman parse human now s <> UnknownValue.
Proof.
  intros Hz Hs Hp.
  assert (Hna : toAgeHuman parse human now s = NAValue).
  { unfold toAgeHuman. apply String.eqb_neq in Hs. rewrite Hs, Hp. reflexivity. }
  repeat split.
  - unfold ToAge. rewrite Hz. reflexivity.
  - exact Hna.
  - rewrite Hna. discriminate.
Qed.

Lemma temporal_sentinels_witness :
  let human := fun d : Z => "" in
  let now := mkTime 63900000000 0 in
  ToAge human now (mkTime 0 0) = UnknownValue
  /\ toAgeHuman parse_utc_seconds human now "" = UnknownValue
  /\ toAgeHuman parse_utc_seconds human now "not-a-date" = NAValue
  /\ toAgeHuman parse_utc_seconds human now "not-a-date" <> UnknownValue.
Proof.
  intros human now.
  apply (temporal_sentinels parse_utc_seconds human now (mkTime 0 0) "not-a-date").
  - reflexivity.
  - discriminate.
  - reflexivity.
Defined.

(** ** LayoutFitter *)


Lemma app_cons (c : ascii) (a b : string) :
  String c a +:+ b = String c (a +:+ b).
Proof. reflexivity. Qed.

Lemma app_nil (b : string) : "" +:+ b = b.
Proof. reflexivity. Qed.

Lemma take_drop_bytes (n : nat) (s : string) :
  take_bytes n s +:+ drop_bytes n s = s.
Proof.
  revert s. induction n as [|n IH]; intros [|c s]; cbn [take_bytes drop_bytes];
    try reflexivity.
  rewrite app_cons. f_equal. apply IH.
Qed.

Lemma length_take_bytes (n : nat) (s : string) :
  (n <= String.length s)%nat -> String.length (take_bytes n s) = n.
Proof.
  revert s. induction n as [|n IH]; intros [|c s]; simpl; intros H; try lia.
  rewrite IH; lia.
Qed.

Lemma length_drop_bytes (n : nat) (s : string) :
  String.length (drop_bytes n s) = (String.length s - n)%nat.
Proof.
  revert s. induction n as [|n IH]; intros [|c s]; simpl; try lia.
  apply IH.
Qed.

Lemma length_app (a b : string) :
  String.length (a +:+ b) = (String.length a + String.length b)%nat.
Proof.
  induction a as [|c a IH]; [reflexivity|].
  rewrite app_cons. cbn [String.length]. rewrite IH. reflexivity.
Qed.

Lemma app_assoc_s (a b c : string) : (a +:+ b) +:+ c = a +:+ (b +:+ c).
Proof.
  induction a as [|x a IH]; [reflexivity|].
  rewrite !app_cons. f_equal. exact IH.
Qed.

Lemma len_app (a b : string) : len (a +:+ b) = len a + len b.
Proof. unfold len. rewrite length_app. lia. Qed.

Lemma length_repeat_nat (s : string) (n : nat) :
  String.length (repeat_nat s n) = (n * String.length s)%nat.
Proof.
  induction n as [|n IH]; [reflexivity|].
  cbn [repeat_nat]. rewrite length_app, IH. lia.
Qed.









Lemma Pad_cases (runewidth_Truncate : string -> Z -> string -> string)
    (s : string) (width : Z) :
  (len s = width -> Pad runewidth_Truncate s width = s)
  /\ (width < len s ->
      Pad runewidth_Truncate s width = Truncate runewidth_Truncate s width)
  /\ (len s < width ->
      Pad runewidth_Truncate s width = s +:+ strings_Repeat " " (width - len s)
      /\ len (Pad runewidth_Truncate s width) = width).
Proof.
  split; [|split]; intros H; unfold Pad.
  - apply Z.eqb_eq in H. rewrite H. reflexivity.
  - destruct (len s =? width) eqn:E1; [apply Z.eqb_eq in E1; lia|].
    apply Z.ltb_lt in H. rewrite H. reflexivity.
  - destruct (len s =? width) eqn:E1; [apply Z.eqb_eq in E1; lia|].
    destruct (width <? len s) eqn:E2; [apply Z.ltb_lt in E2; lia|].
    split; [reflexivity|].
    unfold strings_Repeat. rewrite len_app. unfold len at 2.
    rewrite length_repeat_nat. cbn [String.length]. lia.
Qed.







(** ** float64 arithmetic *)

(** The model computes the same numbers as primitive binary64 floats on the
    samples: divisions, products, sums, conversions of integers and the
    decimal literals of the source. *)
Lemma RN_agrees_with_binary64 :
  forallb (fun p => Qeq_bool (binary64_value (fst p)) (snd p)) binary64_samples
  = true.
Proof. vm_compute. reflexivity. Qed.

(** *** Powers of two *)
Lemma pow2_pos (e : Z) : (0 < pow2 e)%Q.
Proof. unfold pow2. apply Qpower_0_lt. reflexivity. Qed.

Lemma pow2_add (a b : Z) : (pow2 (a + b) == pow2 a * pow2 b)%Q.
Proof. unfold pow2. apply Qpower_plus. discriminate. Qed.

Lemma pow2_Z (n : Z) : 0 <= n -> (pow2 n == inject_Z (2 ^ n))%Q.
Proof.
  intros Hn. unfold pow2. rewrite Zpower_Qpower by exact Hn. reflexivity.
Qed.

Lemma pow2_ge_1 (n : Z) : 0 <= n -> (1 <= pow2 n)%Q.
Proof.
  intros Hn. rewrite (pow2_Z n Hn).
  change 1%Q with (inject_Z 1). rewrite <- Zle_Qle.
  pose proof (Z.pow_pos_nonneg 2 n ltac:(lia) Hn). lia.
Qed.

Lemma pow2_mono (a b : Z) : a <= b -> (pow2 a <= pow2 b)%Q.
Proof.
  intros H. replace b with (a + (b - a)) by lia. rewrite pow2_add.
  pose proof (pow2_pos a). pose proof (pow2_ge_1 (b - a) ltac:(lia)). nra.
Qed.

Lemma pow2_lt_inv (a b : Z) : (pow2 a < pow2 b)%Q -> a < b.
Proof.
  intros H. destruct (Z.lt_ge_cases a b) as [|Hge]; [assumption|].
  apply pow2_mono in Hge. lra.
Qed.

Lemma pow2_succ (a : Z) : (pow2 (a + 1) == 2 * pow2 a)%Q.
Proof. rewrite pow2_add. change (pow2 1) with 2%Q. lra. Qed.

(** *** Exponents *)
Lemma flog2_spec (q : Q) :
  (0 < q)%Q -> (pow2 (flog2 q) <= q /\ q < pow2 (flog2 q + 1))%Q.
Proof.
  intros Hq. destruct q as [n d]. 
  assert (Hn : 0 < n). { unfold Qlt in Hq. simpl in Hq. lia. }
  unfold flog2. cbn [Qnum Qden].
  set (a := Z.log2 n). set (b := Z.log2 (Z.pos d)).
  destruct (Z.log2_spec n Hn) as [Ha1 Ha2]. fold a in Ha1, Ha2.
  destruct (Z.log2_spec (Z.pos d) ltac:(lia)) as [Hb1 Hb2]. fold b in Hb1, Hb2.
  assert (Ha0 : 0 <= a) by apply Z.log2_nonneg.
  assert (Hb0 : 0 <= b) by apply Z.log2_nonneg.
  assert (Hq' : (n # d == inject_Z n / inject_Z (Z.pos d))%Q) by apply Qmake_Qdiv.
  assert (HD : (0 < inject_Z (Z.pos d))%Q).
  { change 0%Q with (inject_Z 0). rewrite <- Zlt_Qlt. lia. }
  assert (Ea : (pow2 a <= inject_Z n)%Q).
  { rewrite pow2_Z by lia. rewrite <- Zle_Qle. lia. }
  assert (Ea' : (inject_Z n < pow2 (a + 1))%Q).
  { rewrite pow2_Z by lia. rewrite <- Zlt_Qlt. replace (a + 1) with (Z.succ a) by lia. lia. }
  assert (Eb : (pow2 b <= inject_Z (Z.pos d))%Q).
  { rewrite pow2_Z by lia. rewrite <- Zle_Qle. lia. }
  assert (Eb' : (inject_Z (Z.pos d) < pow2 (b + 1))%Q).
  { rewrite pow2_Z by lia. rewrite <- Zlt_Qlt. replace (b + 1) with (Z.succ b) by lia. lia. }
  pose proof (pow2_pos b) as Pb. pose proof (pow2_pos (a - b)) as Pab.
  pose proof (pow2_pos (a - b - 1)) as Pab1.
  assert (E1 : (pow2 a == pow2 (a - b) * pow2 b)%Q).
  { rewrite <- pow2_add. replace (a - b + b) with a by lia. reflexivity. }
  assert (E2 : (pow2 (a + 1) == pow2 (a - b + 1) * pow2 b)%Q).
  { rewrite <- pow2_add. replace (a - b + 1 + b) with (a + 1) by lia. reflexivity. }
  assert (E3 : (pow2 a == pow2 (a - b - 1) * pow2 (b + 1))%Q).
  { rewrite <- pow2_add. replace (a - b - 1 + (b + 1)) with a by lia. reflexivity. }
  assert (E4 : (pow2 (a - b - 1 + 1) == pow2 (a - b))%Q).
  { replace (a - b - 1 + 1) with (a - b) by lia. reflexivity. }
  destruct (Qle_bool (pow2 (a - b)) (n # d)) eqn:E.
  - apply Qle_bool_iff in E. split; [exact E|].
    rewrite Hq'. apply Qlt_shift_div_r; [exact HD|].
    pose proof (pow2_pos (a - b + 1)). nra.
  - assert (E' : (n # d < pow2 (a - b))%Q).
    { apply Qnot_le_lt. intros C. apply Qle_bool_iff in C. congruence. }
    split; [|rewrite E4; exact E'].
    rewrite Hq'. apply Qle_shift_div_l; [exact HD|]. nra.
Qed.

Lemma flog2_mono (x y : Q) : (0 < x)%Q -> (x <= y)%Q -> flog2 x <= flog2 y.
Proof.
  intros Hx Hxy. destruct (flog2_spec x Hx) as [X1 X2].
  destruct (flog2_spec y ltac:(lra)) as [Y1 Y2].
  assert (flog2 x < flog2 y + 1) by (apply pow2_lt_inv; lra). lia.
Qed.

(** *** Rounding to integers *)
Lemma rne_cases (x : Q) :
  (rne x = Qfloor x /\ (x - inject_Z (Qfloor x) <= 1 # 2)%Q)
  \/ (rne x = Qfloor x + 1 /\ (1 # 2 <= x - inject_Z (Qfloor x))%Q).
Proof.
  unfold rne. destruct (Qcompare_spec (x - inject_Z (Qfloor x)) (1 # 2)) as [E|E|E].
  - destruct (Z.even (Qfloor x)); [left | right]; split; try reflexivity; lra.
  - left. split; [reflexivity | lra].
  - right. split; [reflexivity | lra].
Qed.

Lemma Qfloor_bounds (x : Q) :
  (inject_Z (Qfloor x) <= x /\ x < inject_Z (Qfloor x) + 1)%Q.
Proof.
  split; [apply Qfloor_le|].
  pose proof (Qlt_floor x) as H. rewrite inject_Z_plus in H. exact H.
Qed.

Lemma rne_mono (x y : Q) : (x <= y)%Q -> rne x <= rne y.
Proof.
  intros Hxy. pose proof (Qfloor_resp_le x y Hxy) as Hf.
  pose proof (Qfloor_bounds x) as [Bx1 Bx2]. pose proof (Qfloor_bounds y) as [By1 By2].
  destruct (Z.eq_dec (Qfloor x) (Qfloor y)) as [Heq|Hne].
  - unfold rne. rewrite <- Heq.
    assert (Hr : (x - inject_Z (Qfloor x) <= y - inject_Z (Qfloor x))%Q) by lra.
    destruct (Qcompare_spec (x - inject_Z (Qfloor x)) (1 # 2)) as [E|E|E];
      destruct (Qcompare_spec (y - inject_Z (Qfloor x)) (1 # 2)) as [E'|E'|E'];
      try destruct (Z.even (Qfloor x)); try lia; lra.
  - destruct (rne_cases x) as [[-> _]|[-> _]]; destruct (rne_cases y) as [[-> _]|[-> _]]; lia.
Qed.

Lemma rne_Z (n : Z) : rne (inject_Z n) = n.
Proof.
  unfold rne. rewrite Qfloor_Z.
  destruct (Qcompare_spec (inject_Z n - inject_Z n) (1 # 2)) as [E|E|E];
    try reflexivity; lra.
Qed.

(** *** Rounding to binary64 *)
Lemma Qabs_pos_eq (q : Q) : (0 < q)%Q -> Qabs q = q.
Proof.
  destruct q as [n d]. unfold Qlt. simpl. intros H.
  rewrite Z.abs_eq by lia. reflexivity.
Qed.

Lemma RN_pos_unfold (q : Q) :
  (0 < q)%Q ->
  RN q = (inject_Z (rne (q / pow2 (flog2 q - 52))) * pow2 (flog2 q - 52))%Q.
Proof.
  intros Hq. unfold RN.
  destruct (Qeq_bool q 0) eqn:E.
  - apply Qeq_bool_iff in E. lra.
  - rewrite (Qabs_pos_eq q Hq). reflexivity.
Qed.

Lemma scaled_bounds (q : Q) :
  (0 < q)%Q ->
  (inject_Z (2 ^ 52) <= q / pow2 (flog2 q - 52)
   /\ q / pow2 (flog2 q - 52) < inject_Z (2 ^ 53))%Q.
Proof.
  intros Hq. destruct (flog2_spec q Hq) as [F1 F2].
  set (e := flog2 q) in *. pose proof (pow2_pos (e - 52)) as Pu.
  assert (E1 : (pow2 e == inject_Z (2 ^ 52) * pow2 (e - 52))%Q).
  { rewrite <- (pow2_Z 52) by lia. rewrite <- pow2_add.
    replace (52 + (e - 52)) with e by lia. reflexivity. }
  assert (E2 : (pow2 (e + 1) == inject_Z (2 ^ 53) * pow2 (e - 52))%Q).
  { rewrite <- (pow2_Z 53) by lia. rewrite <- pow2_add.
    replace (53 + (e - 52)) with (e + 1) by lia. reflexivity. }
  split.
  - apply Qle_shift_div_l; [exact Pu|]. lra.
  - apply Qlt_shift_div_r; [exact Pu|]. lra.
Qed.

Lemma RN_pos_bounds (q : Q) :
  (0 < q)%Q -> (pow2 (flog2 q) <= RN q /\ RN q <= pow2 (flog2 q + 1))%Q.
Proof.
  intros Hq. rewrite (RN_pos_unfold q Hq).
  destruct (scaled_bounds q Hq) as [S1 S2].
  set (e := flog2 q) in *. pose proof (pow2_pos (e - 52)) as Pu.
  assert (E1 : (pow2 e == inject_Z (2 ^ 52) * pow2 (e - 52))%Q).
  { rewrite <- (pow2_Z 52) by lia. rewrite <- pow2_add.
    replace (52 + (e - 52)) with e by lia. reflexivity. }
  assert (E2 : (pow2 (e + 1) == inject_Z (2 ^ 53) * pow2 (e - 52))%Q).
  { rewrite <- (pow2_Z 53) by lia. rewrite <- pow2_add.
    replace (53 + (e - 52)) with (e + 1) by lia. reflexivity. }
  assert (R1 : 2 ^ 52 <= rne (q / pow2 (e - 52))).
  { rewrite <- (rne_Z (2 ^ 52)). apply rne_mono. exact S1. }
  assert (R2 : rne (q / pow2 (e - 52)) <= 2 ^ 53).
  { rewrite <- (rne_Z (2 ^ 53)). apply rne_mono. lra. }
  rewrite Zle_Qle in R1, R2.
  rewrite E1, E2. split; nra.
Qed.

Lemma RN_mono_pos (x y : Q) : (0 < x)%Q -> (x <= y)%Q -> (RN x <= RN y)%Q.
Proof.
  intros Hx Hxy. assert (Hy : (0 < y)%Q) by lra.
  pose proof (flog2_mono x y Hx Hxy) as Hm.
  destruct (Z.eq_dec (flog2 x) (flog2 y)) as [Heq|Hne].
  - rewrite (RN_pos_unfold x Hx), (RN_pos_unfold y Hy), <- Heq.
    pose proof (pow2_pos (flog2 x - 52)) as Pu.
    assert (Hs : (x / pow2 (flog2 x - 52) <= y / pow2 (flog2 x - 52))%Q).
    { apply Qle_shift_div_l; [exact Pu|].
      unfold Qdiv. rewrite <- Qmult_assoc, (Qmult_comm (/ _)), Qmult_inv_r by lra. lra. }
    apply rne_mono in Hs. rewrite Zle_Qle in Hs. nra.
  - destruct (RN_pos_bounds x Hx) as [_ Bx]. destruct (RN_pos_bounds y Hy) as [By _].
    pose proof (pow2_mono (flog2 x + 1) (flog2 y) ltac:(lia)). lra.
Qed.

Lemma RN_0 (q : Q) : (q == 0)%Q -> RN q = 0%Q.
Proof. intros H. unfold RN. apply Qeq_bool_iff in H. rewrite H. reflexivity. Qed.

Lemma RN_pos (q : Q) : (0 < q)%Q -> (0 < RN q)%Q.
Proof.
  intros H. destruct (RN_pos_bounds q H) as [B _]. pose proof (pow2_pos (flog2 q)). lra.
Qed.

Lemma rne_comp (x y : Q) : (x == y)%Q -> rne x = rne y.
Proof.
  intros H. apply Z.le_antisymm; apply rne_mono; lra.
Qed.

Lemma Qfloor_unique (x : Q) (n : Z) :
  (inject_Z n <= x)%Q -> (x < inject_Z n + 1)%Q -> Qfloor x = n.
Proof.
  intros H1 H2. destruct (Qfloor_bounds x) as [B1 B2].
  assert (A : (inject_Z n < inject_Z (Qfloor x + 1))%Q)
    by (rewrite inject_Z_plus; change (inject_Z 1) with 1%Q; lra).
  assert (B : (inject_Z (Qfloor x) < inject_Z (n + 1))%Q)
    by (rewrite inject_Z_plus; change (inject_Z 1) with 1%Q; lra).
  rewrite <- Zlt_Qlt in A, B. lia.
Qed.

Lemma rne_opp (x : Q) : rne (- x) = - rne x.
Proof.
  destruct (Qfloor_bounds x) as [B1 B2]. set (f := Qfloor x) in *.
  destruct (Qeq_dec x (inject_Z f)) as [E|E].
  - rewrite (rne_comp x (inject_Z f) E), rne_Z.
    rewrite (rne_comp (- x) (inject_Z (- f))), rne_Z; [reflexivity|].
    rewrite inject_Z_opp. lra.
  - assert (Hf : Qfloor (- x) = - f - 1).
    { assert (G : (inject_Z f < x)%Q).
      { destruct (Qlt_le_dec (inject_Z f) x) as [G|G]; [exact G|].
        exfalso. apply E. lra. }
      apply Qfloor_unique; unfold Z.sub; rewrite inject_Z_plus, !inject_Z_opp;
        change (inject_Z 1) with 1%Q; lra. }
    unfold rne. rewrite Hf. fold f.
    assert (Hi : (inject_Z (- f - 1) == - inject_Z f - 1)%Q).
    { unfold Z.sub. rewrite inject_Z_plus, !inject_Z_opp. reflexivity. }
    assert (Hev : Z.even (- f - 1) = negb (Z.even f)).
    { replace (- f - 1) with (- (f + 1)) by lia.
      rewrite Z.even_opp, Z.add_1_r, Z.even_succ, <- Z.negb_even. reflexivity. }
    destruct (Qcompare_spec (x - inject_Z f) (1 # 2)) as [C|C|C];
      destruct (Qcompare_spec (- x - inject_Z (- f - 1)) (1 # 2)) as [C'|C'|C'];
      rewrite ?Hev; try destruct (Z.even f); simpl; try lia; lra.
Qed.

Lemma Qabs_opp_eq (q : Q) : Qabs (- q) = Qabs q.
Proof. destruct q as [n d]. unfold Qabs, Qopp. simpl. rewrite Z.abs_opp. reflexivity. Qed.

Lemma RN_opp (q : Q) : (RN (- q) == - RN q)%Q.
Proof.
  unfold RN. destruct (Qeq_bool q 0) eqn:E.
  - assert (E' : Qeq_bool (- q) 0 = true).
    { apply Qeq_bool_iff. apply Qeq_bool_iff in E. lra. }
    rewrite E'. reflexivity.
  - assert (E' : Qeq_bool (- q) 0 = false).
    { destruct (Qeq_bool (- q) 0) eqn:C; [|reflexivity].
      apply Qeq_bool_iff in C. assert (q == 0)%Q by lra.
      apply Qeq_bool_iff in H. congruence. }
    rewrite E', Qabs_opp_eq. cbv zeta.
    set (u := pow2 (flog2 (Qabs q) - 52)).
    assert (Pu : (0 < u)%Q) by apply pow2_pos.
    rewrite (rne_comp (- q / u) (- (q / u))).
    + rewrite rne_opp, inject_Z_opp. lra.
    + field. lra.
Qed.

Lemma RN_neg (q : Q) : (q < 0)%Q -> (RN q < 0)%Q.
Proof.
  intros H. assert (E : (q == - - q)%Q) by lra.
  pose proof (RN_opp (- q)) as Ho. pose proof (RN_pos (- q) ltac:(lra)) as Hp.
  assert (Hq : (RN (- - q) <= RN q /\ RN q <= RN (- - q))%Q).
  { destruct q as [n d]. unfold Qopp. simpl. rewrite Z.opp_involutive. lra. }
  lra.
Qed.

Lemma Qopp_opp_eq (q : Q) : (- - q)%Q = q.
Proof. destruct q as [n d]. unfold Qopp. simpl. rewrite Z.opp_involutive. reflexivity. Qed.

(** Rounding is monotone. *)
Theorem RN_mono (x y : Q) : (x <= y)%Q -> (RN x <= RN y)%Q.
Proof.
  intros Hxy.
  destruct (Qlt_le_dec 0 x) as [Hx|Hx]; [apply RN_mono_pos; assumption|].
  destruct (Qlt_le_dec 0 y) as [Hy|Hy].
  - pose proof (RN_pos y Hy).
    destruct (Qeq_dec x 0) as [E|E]; [rewrite (RN_0 x E); lra|].
    pose proof (RN_neg x ltac:(lra)). lra.
  - destruct (Qeq_dec y 0) as [Ey|Ey].
    + rewrite (RN_0 y Ey).
      destruct (Qeq_dec x 0) as [E|E]; [rewrite (RN_0 x E); lra|].
      pose proof (RN_neg x ltac:(lra)). lra.
    + assert (Hy' : (0 < - y)%Q) by lra.
      pose proof (RN_mono_pos (- y) (- x) Hy' ltac:(lra)) as Hm.
      pose proof (RN_opp (- x)) as Ox. pose proof (RN_opp (- y)) as Oy.
      rewrite Qopp_opp_eq in Ox, Oy. lra.
Qed.

Lemma RN_comp (x y : Q) : (x == y)%Q -> (RN x == RN y)%Q.
Proof. intros H. apply Qle_antisym; apply RN_mono; lra. Qed.

(** *** Interval bounds of float64 expressions *)

Lemma In_pt (q : Q) : In_itv q (pt q).
Proof. split; apply Qle_refl. Qed.

Lemma min4_le (a b c d x : Q) :
  (a <= x \/ b <= x \/ c <= x \/ d <= x)%Q -> (min4 a b c d <= x)%Q.
Proof.
  unfold min4. intros H.
  pose proof (Q.le_min_l (Qmin a b) (Qmin c d)). pose proof (Q.le_min_r (Qmin a b) (Qmin c d)).
  pose proof (Q.le_min_l a b). pose proof (Q.le_min_r a b).
  pose proof (Q.le_min_l c d). pose proof (Q.le_min_r c d).
  destruct H as [H|[H|[H|H]]]; lra.
Qed.

Lemma max4_ge (a b c d x : Q) :
  (x <= a \/ x <= b \/ x <= c \/ x <= d)%Q -> (x <= max4 a b c d)%Q.
Proof.
  unfold max4. intros H.
  pose proof (Q.le_max_l (Qmax a b) (Qmax c d)). pose proof (Q.le_max_r (Qmax a b) (Qmax c d)).
  pose proof (Q.le_max_l a b). pose proof (Q.le_max_r a b).
  pose proof (Q.le_max_l c d). pose proof (Q.le_max_r c d).
  destruct H as [H|[H|[H|H]]]; lra.
Qed.

Lemma mul_corners (a b c d x y : Q) :
  (a <= x <= b)%Q -> (c <= y <= d)%Q ->
  (min4 (a * c) (a * d) (b * c) (b * d) <= x * y
   /\ x * y <= max4 (a * c) (a * d) (b * c) (b * d))%Q.
Proof.
  intros [Hx1 Hx2] [Hy1 Hy2]. split.
  - apply min4_le.
    destruct (Qlt_le_dec y 0) as [Sy|Sy].
    + (* y < 0: x*y >= b*y *)
      destruct (Qlt_le_dec b 0) as [Sb|Sb].
      * right; right; right. nra.
      * right; right; left. nra.
    + destruct (Qlt_le_dec a 0) as [Sa|Sa].
      * right; left. nra.
      * left. nra.
  - apply max4_ge.
    destruct (Qlt_le_dec y 0) as [Sy|Sy].
    + destruct (Qlt_le_dec a 0) as [Sa|Sa].
      * left. nra.
      * right; left. nra.
    + destruct (Qlt_le_dec b 0) as [Sb|Sb].
      * right; right; left. nra.
      * right; right; right. nra.
Qed.

Lemma In_iadd x y I J : In_itv x I -> In_itv y J -> In_itv (fadd x y) (iadd I J).
Proof. intros [H1 H2] [H3 H4]. split; apply RN_mono; cbn; lra. Qed.

Lemma In_isub x y I J : In_itv x I -> In_itv y J -> In_itv (fsub x y) (isub I J).
Proof. intros [H1 H2] [H3 H4]. split; apply RN_mono; cbn; lra. Qed.

Lemma In_imul x y I J : In_itv x I -> In_itv y J -> In_itv (fmul x y) (imul I J).
Proof.
  intros Hx Hy. destruct (mul_corners _ _ _ _ x y Hx Hy) as [H1 H2].
  split; apply RN_mono; cbn; assumption.
Qed.

Lemma Qinv_le_anti (a b : Q) : (0 < a)%Q -> (a <= b)%Q -> (/ b <= / a)%Q.
Proof.
  intros Ha Hab. assert (Hb : (0 < b)%Q) by lra.
  pose proof (Qinv_lt_0_compat a Ha) as Ia. pose proof (Qinv_lt_0_compat b Hb) as Ib.
  assert (Ea : (a * / a == 1)%Q) by (apply Qmult_inv_r; lra).
  assert (Eb : (b * / b == 1)%Q) by (apply Qmult_inv_r; lra).
  assert (P : (0 <= / a * / b)%Q) by nra.
  assert (H : (0 <= (b - a) * (/ a * / b))%Q) by nra.
  assert (E : ((b - a) * (/ a * / b) == (b * / b) * / a - (a * / a) * / b)%Q) by ring.
  rewrite E, Ea, Eb in H. lra.
Qed.

Lemma In_idiv x y I J :
  (0 < lo J)%Q -> In_itv x I -> In_itv y J -> In_itv (fdiv x y) (idiv I J).
Proof.
  intros HJ Hx [Hy1 Hy2].
  assert (Hinv : (/ hi J <= / y <= / lo J)%Q).
  { split; apply Qinv_le_anti; lra. }
  destruct (mul_corners _ _ _ _ x (/ y) Hx Hinv) as [H1 H2].
  split; apply RN_mono; cbn; unfold Qdiv.
  - eapply Qle_trans; [|exact H1].
    apply Qle_lteq. right.
    unfold min4. rewrite (Q.min_comm (lo I * / lo J) (lo I * / hi J)).
    rewrite (Q.min_comm (hi I * / lo J) (hi I * / hi J)). reflexivity.
  - eapply Qle_trans; [exact H2|].
    apply Qle_lteq. right.
    unfold max4. rewrite (Q.max_comm (lo I * / lo J) (lo I * / hi J)).
    rewrite (Q.max_comm (hi I * / lo J) (hi I * / hi J)). reflexivity.
Qed.

Ltac itv_step Hpos :=
  lazymatch goal with
  | |- In_itv (fadd _ _) (iadd _ _) => apply In_iadd
  | |- In_itv (fsub _ _) (isub _ _) => apply In_isub
  | |- In_itv (fmul _ _) (imul _ _) => apply In_imul
  | |- In_itv (fdiv _ _) (idiv _ _) => apply In_idiv; [exact Hpos| |]
  | |- In_itv _ (pt _) => apply In_pt
  | |- In_itv _ _ => assumption
  end.

Lemma In_ilog_reduced f k F K :
  (0 < lo (iadd (pt 2) F))%Q ->
  In_itv f F -> In_itv k K -> In_itv (log_reduced f k) (ilog_reduced F K).
Proof.
  intros Hpos Hf Hk. unfold log_reduced, ilog_reduced. cbv zeta.
  repeat itv_step Hpos.
Qed.

(** ** ByteHumanizer *)

Ltac qle_compute := apply Qle_bool_iff; vm_compute; reflexivity.
Ltac qlt_compute :=
  apply Qnot_le_lt; let C := fresh in
  intros C; apply Qle_bool_iff in C; vm_compute in C; discriminate C.

Lemma Qltb_true (x y : Q) : Qltb x y = true -> (x < y)%Q.
Proof.
  unfold Qltb. intros H. apply negb_true_iff in H.
  apply Qnot_le_lt. intros C. apply Qle_bool_iff in C. congruence.
Qed.

Lemma Qltb_false (x y : Q) : Qltb x y = false -> (y <= x)%Q.
Proof.
  unfold Qltb. intros H. apply negb_false_iff in H. apply Qle_bool_iff. exact H.
Qed.

Lemma math_Frexp_spec (x : Q) :
  (0 < x)%Q ->
  let '(f1, ki) := math_Frexp x in
  ((1 # 2) <= f1 /\ f1 < 1 /\ x == f1 * pow2 ki)%Q /\ ki = flog2 x + 1.
Proof.
  intros Hx. unfold math_Frexp.
  destruct (Qeq_bool x 0) eqn:E; [apply Qeq_bool_iff in E; lra|].
  rewrite (Qabs_pos_eq x Hx).
  destruct (flog2_spec x Hx) as [F1 F2]. set (e := flog2 x) in *.
  pose proof (pow2_pos (e + 1)) as P. pose proof (pow2_succ e) as S.
  repeat split.
  - apply Qle_shift_div_l; [exact P|]. lra.
  - apply Qlt_shift_div_r; [exact P|]. lra.
  - field. lra.
Qed.

(** The reduction of [math.Log] on a positive argument. *)
Lemma log_reduce_spec (x : Q) :
  (0 < x)%Q ->
  let '(f, ki) := log_reduce x in
  In_itv f F_itv /\ (HSqrt2 * pow2 ki <= x /\ x <= HSqrt2 * 2 * pow2 ki)%Q.
Proof.
  intros Hx. unfold log_reduce.
  pose proof (math_Frexp_spec x Hx) as Hf.
  destruct (math_Frexp x) as [f1 ki0]. destruct Hf as [(B1 & B2 & Ex) Hk].
  pose proof (pow2_pos ki0) as P0.
  assert (H1 : (HSqrt2 <= 1)%Q) by qle_compute.
  assert (H2 : (1 <= RN (HSqrt2 * 2))%Q) by qle_compute.
  assert (H3 : (RN ((1 # 2) * 2) == 1)%Q) by (apply Qeq_bool_iff; vm_compute; reflexivity).
  assert (H4 : (1 <= HSqrt2 * 2)%Q) by qle_compute.
  destruct (Qltb f1 HSqrt2) eqn:E.
  - apply Qltb_true in E.
    assert (Ep : (pow2 ki0 == 2 * pow2 (ki0 - 1))%Q).
    { rewrite <- pow2_succ. replace (ki0 - 1 + 1) with ki0 by lia. reflexivity. }
    pose proof (pow2_pos (ki0 - 1)) as P1.
    split.
    + apply In_isub; [|apply In_pt]. unfold fmul. split; cbn.
      * eapply Qle_trans; [|apply RN_mono with (x := ((1 # 2) * 2)%Q); lra]. lra.
      * apply RN_mono. lra.
    + rewrite Ex, Ep. split; nra.
  - apply Qltb_false in E. split.
    + apply In_isub; [|apply In_pt]. split; cbn; lra.
    + rewrite Ex. split; nra.
Qed.

Lemma float64_of_int_bounds (a s b : Z) :
  a <= s <= b ->
  (RN (inject_Z a) <= float64_of_int s /\ float64_of_int s <= RN (inject_Z b))%Q.
Proof.
  intros [H1 H2]. unfold float64_of_int.
  split; apply RN_mono; rewrite <- Zle_Qle; assumption.
Qed.

(** Bounds of the exponent of the reduction for the arguments of
    [humanateBytes]. *)
Lemma log_reduce_exponent (x : Q) (f : Q) (ki : Z) :
  (10 <= x)%Q -> (x <= inject_Z (2 ^ 64))%Q -> log_reduce x = (f, ki) ->
  In_itv f F_itv /\ 3 <= ki <= 64.
Proof.
  intros Hlo Hhi Hr. pose proof (log_reduce_spec x ltac:(lra)) as Hs.
  rewrite Hr in Hs. destruct Hs as [Hf [X1 X2]]. split; [exact Hf|].
  assert (A1 : (HSqrt2 * 2 * pow2 2 < 10)%Q) by qlt_compute.
  assert (A2 : (inject_Z (2 ^ 64) < HSqrt2 * pow2 65)%Q) by qlt_compute.
  assert (P : (0 < HSqrt2)%Q) by qlt_compute.
  split.
  - destruct (Z.lt_ge_cases 2 ki) as [|C]; [lia|].
    apply pow2_mono in C. nra.
  - destruct (Z.lt_ge_cases ki 65) as [|C]; [lia|].
    apply pow2_mono in C. nra.
Qed.

Lemma math_Log_bounds (x : Q) :
  (10 <= x)%Q -> (x <= inject_Z (2 ^ 64))%Q -> In_itv (math_Log x) Log_itv.
Proof.
  intros Hlo Hhi. unfold math_Log.
  destruct (log_reduce x) as [f ki] eqn:Hr.
  destruct (log_reduce_exponent x f ki Hlo Hhi Hr) as [Hf Hk].
  apply In_ilog_reduced.
  - qlt_compute.
  - exact Hf.
  - apply (float64_of_int_bounds 3 ki 64). exact Hk.
Qed.

Lemma scale_exponent_bounds (s : Z) :
  10 <= s < 2 ^ 64 -> 0 <= scale_exponent s 1024 <= 6.
Proof.
  intros Hs.
  destruct (float64_of_int_bounds 10 s (2 ^ 64) ltac:(lia)) as [X1 X2].
  assert (A1 : (10 <= RN (inject_Z 10))%Q) by qle_compute.
  assert (A2 : (RN (inject_Z (2 ^ 64)) <= inject_Z (2 ^ 64))%Q) by qle_compute.
  pose proof (math_Log_bounds (float64_of_int s) ltac:(lra) ltac:(lra)) as HL.
  assert (HQ : In_itv (logn (float64_of_int s) 1024) logn_itv).
  { unfold logn, logn_itv. apply In_idiv; [qlt_compute | exact HL | apply In_pt]. }
  unfold scale_exponent, math_Floor. rewrite Qfloor_Z.
  destruct HQ as [Q1 Q2]. apply Qfloor_resp_le in Q1, Q2.
  assert (B1 : 0 <= Qfloor (lo logn_itv)) by (apply Z.leb_le; vm_compute; reflexivity).
  assert (B2 : Qfloor (hi logn_itv) <= 6) by (apply Z.leb_le; vm_compute; reflexivity).
  lia.
Qed.

Lemma math_Floor_mono (x y : Q) : (x <= y)%Q -> (math_Floor x <= math_Floor y)%Q.
Proof.
  intros H. unfold math_Floor. rewrite <- Zle_Qle. apply Qfloor_resp_le. exact H.
Qed.

Lemma scaled_value_mono (x x' p p' : Q) :
  (0 <= x)%Q -> (x <= x')%Q -> (0 < p')%Q -> (p' <= p)%Q ->
  (scaled_value x p <= scaled_value x' p')%Q.
Proof.
  intros Hx Hxx Hp Hpp. unfold scaled_value, fdiv, fadd, fmul.
  assert (Hq : (x / p <= x' / p')%Q).
  { pose proof (Qinv_le_anti p' p Hp Hpp) as Hi.
    pose proof (Qinv_lt_0_compat p ltac:(lra)) as Ip.
    unfold Qdiv. nra. }
  apply RN_mono in Hq.
  assert (H10 : (RN (x / p) * 10 <= RN (x' / p') * 10)%Q) by lra.
  apply RN_mono in H10.
  assert (Hh : (RN (RN (x / p) * 10) + (1 # 2) <= RN (RN (x' / p') * 10) + (1 # 2))%Q)
    by lra.
  apply RN_mono in Hh. apply math_Floor_mono in Hh.
  apply RN_mono. unfold Qdiv. apply Qmult_le_compat_r; [exact Hh | discriminate].
Qed.

Lemma scaled_value_nonneg (x p : Q) :
  (0 <= x)%Q -> (0 < p)%Q -> (0 <= scaled_value x p)%Q.
Proof.
  intros Hx Hp.
  pose proof (scaled_value_mono 0 x p p ltac:(lra) Hx Hp ltac:(lra)) as H.
  assert (E : scaled_value 0 p = 0%Q).
  { unfold scaled_value, fdiv at 2. rewrite (RN_0 (0 / p)) by (unfold Qdiv; apply Qmult_0_l).
    vm_compute. reflexivity. }
  rewrite E in H. exact H.
Qed.

Lemma math_Pow_1024_mono (e0 e : Z) :
  e0 <= e ->
  (0 < math_Pow 1024 e0 /\ math_Pow 1024 e0 <= math_Pow 1024 e)%Q.
Proof.
  intros H. unfold math_Pow. split.
  - apply RN_pos. apply Qpower_0_lt. reflexivity.
  - apply RN_mono. apply Qpower_le_compat_l; [exact H|]. discriminate.
Qed.

Lemma forallb_exponents (P : Z -> bool) (k : Z) :
  forallb P exponents = true -> 3 <= k <= 64 -> P k = true.
Proof.
  intros H Hk. rewrite forallb_forall in H. apply H.
  unfold exponents. rewrite <- (Z2Nat.id k) by lia.
  apply in_map. apply in_seq. lia.
Qed.

Lemma check_exponents :
  forallb (fun k => Qle_bool (greatest_value k) 99999) exponents = true.
Proof. vm_compute. reflexivity. Qed.

Lemma least_exponent_le (x f : Q) (k : Z) :
  log_reduce x = (f, k) -> In_itv f F_itv ->
  least_exponent k <= Qfloor (logn x 1024).
Proof.
  intros Hr Hf.
  assert (HM : In_itv (math_Log x) (ilog_reduced F_itv (pt (float64_of_int k)))).
  { unfold math_Log. rewrite Hr. apply In_ilog_reduced.
    - qlt_compute.
    - exact Hf.
    - apply In_pt. }
  assert (HL : In_itv (logn x 1024) (logn_itv_k k)).
  { unfold logn. apply In_idiv; [qlt_compute | exact HM | apply In_pt]. }
  destruct HL as [HL1 _].
  exact (Qfloor_resp_le _ _ HL1).
Qed.

Lemma scaled_value_upper (x f : Q) (k e : Z) :
  (10 <= x)%Q -> (x <= inject_Z (2 ^ 64))%Q -> log_reduce x = (f, k) ->
  e = Qfloor (logn x 1024) ->
  (scaled_value x (math_Pow 1024 e) <= 99999)%Q.
Proof.
  intros Hx10 Hx64 Hr He.
  destruct (log_reduce_exponent x f k Hx10 Hx64 Hr) as [Hf Hk].
  pose proof (log_reduce_spec x ltac:(lra)) as Hspec. rewrite Hr in Hspec.
  destruct Hspec as [_ [_ Hxhi]].
  pose proof (forallb_exponents _ k check_exponents Hk) as Hc.
  cbv beta in Hc. apply Qle_bool_iff in Hc.
  pose proof (least_exponent_le x f k Hr Hf) as Hle. rewrite <- He in Hle.
  destruct (math_Pow_1024_mono (least_exponent k) e Hle) as [Hq0 Hq1].
  apply (Qle_trans _ (greatest_value k)); [|exact Hc].
  apply scaled_value_mono; [lra | exact Hxhi | exact Hq0 | exact Hq1].
Qed.

Lemma scaled_value_unscaled (x : Q) :
  (10 <= x)%Q -> (10 <= scaled_value x (math_Pow 1024 0))%Q.
Proof.
  intros Hx.
  assert (B : (10 <= scaled_value 10 (math_Pow 1024 0))%Q) by qle_compute.
  apply (Qle_trans _ _ _ B).
  apply scaled_value_mono; [discriminate | exact Hx | | apply Qle_refl].
  apply (math_Pow_1024_mono 0 0). lia.
Qed.

(** For a count of at least 10 the scale exponent is within the table and
    the scaled value is below 100000. *)
Lemma scaled_value_bounds (s : Z) :
  10 <= s < 2 ^ 64 ->
  0 <= scale_exponent s 1024 <= 6
  /\ (0 <= scaled_value (float64_of_int s)
                        (math_Pow 1024 (scale_exponent s 1024)))%Q
  /\ (scaled_value (float64_of_int s)
                   (math_Pow 1024 (scale_exponent s 1024)) <= 99999)%Q
  /\ (scale_exponent s 1024 = 0 ->
      (10 <= scaled_value (float64_of_int s)
                          (math_Pow 1024 (scale_exponent s 1024)))%Q).
Proof.
  intros Hs. pose proof (scale_exponent_bounds s Hs) as He.
  destruct (float64_of_int_bounds 10 s (2 ^ 64) ltac:(lia)) as [X1 X2].
  assert (A1 : (10 <= RN (inject_Z 10))%Q) by qle_compute.
  assert (A2 : (RN (inject_Z (2 ^ 64)) <= inject_Z (2 ^ 64))%Q) by qle_compute.
  assert (Hx10 : (10 <= float64_of_int s)%Q) by lra.
  assert (Hx64 : (float64_of_int s <= inject_Z (2 ^ 64))%Q) by lra.
  assert (He' : scale_exponent s 1024
                = Qfloor (logn (float64_of_int s) 1024)).
  { unfold scale_exponent, math_Floor. apply Qfloor_Z. }
  destruct (math_Pow_1024_mono (scale_exponent s 1024) (scale_exponent s 1024)
              ltac:(lia)) as [Hp0 _].
  split; [exact He|]. split; [apply scaled_value_nonneg; lra|]. split.
  - destruct (log_reduce (float64_of_int s)) as [f k] eqn:Hr.
    exact (scaled_value_upper _ f k _ Hx10 Hx64 Hr He').
  - intros E0. rewrite E0. apply scaled_value_unscaled. exact Hx10.
Qed.

(** ** Formatting numbers *)

Lemma digit_char_digit (n : Z) :
  (48 <=? byte_val (digit_char (n mod 10)))
  && (byte_val (digit_char (n mod 10)) <=? 57) = true.
Proof.
  pose proof (Z.mod_pos_bound n 10 ltac:(lia)) as H.
  assert (E : n mod 10 = 0 \/ n mod 10 = 1 \/ n mod 10 = 2 \/ n mod 10 = 3
              \/ n mod 10 = 4 \/ n mod 10 = 5 \/ n mod 10 = 6 \/ n mod 10 = 7
              \/ n mod 10 = 8 \/ n mod 10 = 9) by lia.
  repeat destruct E as [E|E]; rewrite E; reflexivity.
Qed.

Lemma all_digits_digits_fuel (fuel : nat) (n : Z) (acc : string) :
  all_digits acc = true -> all_digits (digits_fuel fuel n acc) = true.
Proof.
  revert n acc. induction fuel as [|fuel IH]; intros n acc Ha; [exact Ha|].
  cbn [digits_fuel]. cbv zeta.
  assert (Ha' : all_digits (String (digit_char (n mod 10)) acc) = true).
  { cbn [all_digits]. rewrite digit_char_digit, Ha. reflexivity. }
  destruct (n <? 10); [exact Ha' | apply IH; exact Ha'].
Qed.

Lemma length_digits_fuel_le (d : nat) (fuel : nat) (n : Z) (acc : string) :
  0 <= n < 10 ^ Z.of_nat (S d) ->
  (String.length (digits_fuel fuel n acc) <= String.length acc + S d)%nat.
Proof.
  revert fuel n acc. induction d as [|d IH]; intros fuel n acc Hn.
  - destruct fuel as [|fuel]; cbn [digits_fuel]; [lia|]. cbv zeta.
    change (10 ^ Z.of_nat 1) with 10 in Hn.
    destruct (n <? 10) eqn:E; [cbn [String.length]; lia|].
    apply Z.ltb_ge in E. lia.
  - destruct fuel as [|fuel]; cbn [digits_fuel]; [lia|]. cbv zeta.
    destruct (n <? 10) eqn:E; [cbn [String.length]; lia|].
    apply Z.ltb_ge in E.
    assert (Hd : 0 <= n / 10 < 10 ^ Z.of_nat (S d)).
    { split; [apply Z.div_pos; lia|].
      apply Z.div_lt_upper_bound; [lia|].
      replace (Z.of_nat (S (S d))) with (Z.succ (Z.of_nat (S d))) in Hn by lia.
      rewrite Z.pow_succ_r in Hn by lia. lia. }
    specialize (IH fuel (n / 10) (String (digit_char (n mod 10)) acc) Hd).
    cbn [String.length] in IH. lia.
Qed.

Lemma length_digits_fuel_ge (fuel : nat) (n : Z) (acc : string) :
  (1 <= fuel)%nat ->
  (String.length acc + 1 <= String.length (digits_fuel fuel n acc))%nat
  /\ ((2 <= fuel)%nat -> 10 <= n ->
      (String.length acc + 2 <= String.length (digits_fuel fuel n acc))%nat).
Proof.
  assert (Hmono : forall fuel n acc,
    (String.length acc <= String.length (digits_fuel fuel n acc))%nat).
  { clear. induction fuel as [|fuel IH]; intros n acc; cbn [digits_fuel]; [lia|].
    cbv zeta. destruct (n <? 10); [cbn [String.length]; lia|].
    specialize (IH (n / 10) (String (digit_char (n mod 10)) acc)).
    cbn [String.length] in IH. lia. }
  intros Hf. destruct fuel as [|fuel]; [lia|]. cbn [digits_fuel]. cbv zeta.
  split.
  - destruct (n <? 10); [cbn [String.length]; lia|].
    pose proof (Hmono fuel (n / 10) (String (digit_char (n mod 10)) acc)) as H.
    cbn [String.length] in H. lia.
  - intros Hf2 Hn. destruct (n <? 10) eqn:E; [apply Z.ltb_lt in E; lia|].
    destruct fuel as [|fuel]; [lia|]. cbn [digits_fuel]. cbv zeta.
    destruct (n / 10 <? 10); [cbn [String.length]; lia|].
    pose proof (Hmono fuel (n / 10 / 10)
      (String (digit_char ((n / 10) mod 10)) (String (digit_char (n mod 10)) acc))) as H.
    cbn [String.length] in H. lia.
Qed.

(** The number of decimal digits of [FormatUint]. *)
Lemma length_FormatUint (d : nat) (n : Z) :
  0 <= n < 10 ^ Z.of_nat (S d) ->
  (1 <= String.length (FormatUint n) <= S d)%nat
  /\ (10 <= n -> (2 <= String.length (FormatUint n))%nat).
Proof.
  intros Hn. unfold FormatUint.
  pose proof (length_digits_fuel_le d (S (Z.to_nat (Z.log2 n))) n "" Hn) as Hle.
  destruct (length_digits_fuel_ge (S (Z.to_nat (Z.log2 n))) n "" ltac:(lia))
    as [Hge1 Hge2].
  cbn [String.length] in *. split; [lia|].
  intros H10. apply Hge2; [|exact H10].
  assert (3 <= Z.log2 n).
  { change 3 with (Z.log2 8). apply Z.log2_le_mono. lia. }
  lia.
Qed.

Lemma all_digits_FormatUint (n : Z) : all_digits (FormatUint n) = true.
Proof. apply all_digits_digits_fuel. reflexivity. Qed.

Lemma repeat_nat_0 (s : string) : repeat_nat s 0 = "".
Proof. reflexivity. Qed.

Lemma Qabs_nonneg_eq (x : Q) : (0 <= x)%Q -> Qabs x = x.
Proof.
  destruct x as [n d]. unfold Qle. simpl. intros H.
  rewrite Z.abs_eq by lia. reflexivity.
Qed.

Lemma Qltb_nonneg (x : Q) : (0 <= x)%Q -> Qltb x 0 = false.
Proof.
  intros H. unfold Qltb. apply negb_false_iff. apply Qle_bool_iff. exact H.
Qed.

Lemma rne_between (a b : Z) (x : Q) :
  (inject_Z a <= x)%Q -> (x <= inject_Z b)%Q -> a <= rne x <= b.
Proof.
  intros H1 H2. apply rne_mono in H1, H2. rewrite rne_Z in H1, H2. lia.
Qed.

(** [%.0f] of a value from 10 to 99999: two to five digits. *)
Lemma Sprintf_f_0 (x : Q) :
  (10 <= x)%Q -> (x <= 99999)%Q ->
  (2 <= String.length (Sprintf_f 0 x) <= 5)%nat
  /\ all_digits (Sprintf_f 0 x) = true.
Proof.
  intros H1 H2. unfold Sprintf_f. cbv zeta.
  rewrite (Qltb_nonneg x) by lra. rewrite (Qabs_nonneg_eq x) by lra.
  set (m := rne (x * inject_Z (10 ^ Z.of_nat 0))).
  assert (Hm : 10 <= m <= 99999).
  { unfold m. change (inject_Z (10 ^ Z.of_nat 0)) with 1%Q.
    apply rne_between.
    - change (inject_Z 10) with 10%Q. lra.
    - change (inject_Z 99999) with 99999%Q. lra. }
  destruct (length_FormatUint 4 m ltac:(change (10 ^ Z.of_nat 5) with 100000; lia))
    as [Hl Hl2].
  specialize (Hl2 ltac:(lia)).
  replace (1 - String.length (FormatUint m))%nat with 0%nat by lia.
  rewrite repeat_nat_0, app_nil. split; [lia | apply all_digits_FormatUint].
Qed.

Lemma length_repeat_0 (n : nat) : String.length (repeat_nat "0" n) = n.
Proof. rewrite length_repeat_nat. cbn [String.length]. lia. Qed.

(** [%.1f] of a value from 0 up to 10: three or four characters. *)
Lemma Sprintf_f_1 (x : Q) :
  (0 <= x)%Q -> (x < 10)%Q ->
  (3 <= String.length (Sprintf_f 1 x) <= 4)%nat.
Proof.
  intros H1 H2. unfold Sprintf_f. cbv zeta.
  rewrite (Qltb_nonneg x) by lra. rewrite (Qabs_nonneg_eq x) by lra.
  set (m := rne (x * inject_Z (10 ^ Z.of_nat 1))).
  assert (Hm : 0 <= m <= 100).
  { unfold m. change (inject_Z (10 ^ Z.of_nat 1)) with 10%Q.
    apply rne_between.
    - change (inject_Z 0) with 0%Q. lra.
    - change (inject_Z 100) with 100%Q. lra. }
  destruct (length_FormatUint 2 m ltac:(change (10 ^ Z.of_nat 3) with 1000; lia))
    as [Hl _].
  set (ds := repeat_nat "0" (2 - String.length (FormatUint m)) +:+ FormatUint m).
  assert (Hds : (2 <= String.length ds <= 3)%nat).
  { unfold ds. rewrite length_app, length_repeat_0. lia. }
  rewrite !length_app, length_take_bytes, length_drop_bytes by lia.
  cbn [String.length]. lia.
Qed.

Lemma all_digits_app (a b : string) :
  all_digits (a +:+ b) = all_digits a && all_digits b.
Proof.
  induction a as [|c a IH]; [reflexivity|].
  rewrite app_cons. cbn [all_digits]. rewrite IH, andb_assoc. reflexivity.
Qed.

Lemma length_TrimSuffix (s suffix : string) :
  (String.length s - String.length suffix
   <= String.length (strings_TrimSuffix s suffix) <= String.length s)%nat.
Proof.
  unfold strings_TrimSuffix, strings_HasSuffix.
  destruct (String.length suffix <=? String.length s)%nat eqn:E; cbn [andb]; [|lia].
  apply Nat.leb_le in E.
  destruct (String.eqb _ suffix); [|lia].
  rewrite length_take_bytes by lia. lia.
Qed.

(** A string of digits does not end in [".0"]. *)
Lemma TrimSuffix_digits (s : string) :
  all_digits s = true -> strings_TrimSuffix s ".0" = s.
Proof.
  intros Hd. unfold strings_TrimSuffix, strings_HasSuffix.
  destruct (String.length ".0" <=? String.length s)%nat; cbn [andb]; [|reflexivity].
  destruct (String.eqb (drop_bytes (String.length s - String.length ".0") s) ".0")
    eqn:E; [|reflexivity].
  apply String.eqb_eq in E.
  rewrite <- (take_drop_bytes (String.length s - String.length ".0") s) in Hd.
  rewrite E, all_digits_app in Hd.
  apply andb_true_iff in Hd as [_ Hd]. discriminate Hd.
Qed.

(** ** ByteHumanizer: the suffix table and the length of the result *)

Lemma index_sizes_1024 (e : Z) :
  0 <= e <= 6 ->
  exists suffix,
    index_sizes sizes_1024 e = Some suffix
    /\ (e = 0 -> suffix = "")
    /\ (1 <= e -> String.length suffix = 1%nat).
Proof.
  intros He.
  assert (E : e = 0 \/ e = 1 \/ e = 2 \/ e = 3 \/ e = 4 \/ e = 5 \/ e = 6) by lia.
  repeat destruct E as [E|E]; subst e; eexists; (split; [reflexivity|]);
    split; intros; try reflexivity; lia.
Qed.

Lemma humanateBytes_scaled (s : Z) :
  10 <= s < 2 ^ 64 ->
  exists str,
    humanateBytes s 1024 sizes_1024 = Some str
    /\ (2 <= String.length str <= 6)%nat.
Proof.
  intros Hs. destruct (scaled_value_bounds s Hs) as (He & Hv0 & Hv1 & Hv2).
  unfold humanateBytes.
  destruct (s <? 10) eqn:E; [apply Z.ltb_lt in E; lia|]. cbv zeta.
  destruct (index_sizes_1024 _ He) as (suffix & -> & Hs0 & Hs1).
  eexists. split; [reflexivity|].
  rewrite length_app.
  set (val := scaled_value (float64_of_int s)
                (math_Pow 1024 (scale_exponent s 1024))) in *.
  destruct (Qltb val 10) eqn:Ev.
  - apply Qltb_true in Ev.
    assert (He1 : 1 <= scale_exponent s 1024).
    { destruct (Z.eq_dec (scale_exponent s 1024) 0) as [E0|E0]; [|lia].
      specialize (Hv2 E0). lra. }
    pose proof (Sprintf_f_1 val Hv0 Ev) as Hl.
    pose proof (length_TrimSuffix (Sprintf_f 1 val) ".0") as Ht.
    cbn [String.length] in Ht. rewrite (Hs1 He1). lia.
  - apply Qltb_false in Ev.
    destruct (Sprintf_f_0 val Ev Hv1) as [Hl Hd].
    rewrite (TrimSuffix_digits _ Hd).
    destruct (Z.eq_dec (scale_exponent s 1024) 0) as [E0|E0].
    + rewrite (Hs0 E0). cbn [String.length]. lia.
    + rewrite (Hs1 ltac:(lia)). lia.
Qed.

Lemma humanateBytes_small (s : Z) :
  1 <= s < 10 ->
  humanateBytes s 1024 sizes_1024 = Some (Itoa s +:+ " B")
  /\ String.length (Itoa s +:+ " B") = 3%nat.
Proof.
  intros Hs.
  assert (E : s = 1 \/ s = 2 \/ s = 3 \/ s = 4 \/ s = 5 \/ s = 6 \/ s = 7
              \/ s = 8 \/ s = 9) by lia.
  repeat destruct E as [E|E]; subst s; split; reflexivity.
Qed.

Lemma uint64_of_int64_range (v : Z) :
  - 2 ^ 63 <= v < 2 ^ 63 -> v <> 0 -> 1 <= uint64_of_int64 v < 2 ^ 64.
Proof.
  intros Hv Hn. unfold uint64_of_int64.
  change (2 ^ 63) with 9223372036854775808 in Hv.
  change (2 ^ 64) with 18446744073709551616.
  pose proof (Z.mod_pos_bound v 18446744073709551616 ltac:(lia)) as Hm.
  destruct (Z.eq_dec (v mod 18446744073709551616) 0) as [E|E]; [|lia].
  apply Z.mod_divide in E; [|lia]. destruct E as [q Hq]. lia.
Qed.

(** Every non-zero [int64], negative ones included, is rendered in two to
    six characters. *)
Lemma humanizeBytes_length (v : Z) :
  - 2 ^ 63 <= v < 2 ^ 63 -> v <> 0 ->
  exists str, humanizeBytes v = Some str /\ 2 <= len str <= 6.
Proof.
  intros Hv Hn. unfold humanizeBytes.
  destruct (v =? 0) eqn:E; [apply Z.eqb_eq in E; lia|].
  pose proof (uint64_of_int64_range v Hv Hn) as Hu.
  destruct (Z.lt_ge_cases (uint64_of_int64 v) 10) as [Hlt|Hge].
  - destruct (humanateBytes_small (uint64_of_int64 v) ltac:(lia)) as [-> Hl].
    eexists. split; [reflexivity|]. unfold len. rewrite Hl. lia.
  - destruct (humanateBytes_scaled (uint64_of_int64 v) ltac:(lia))
      as (str & -> & Hl).
    exists str. split; [reflexivity|]. unfold len. lia.
Qed.

(** C5: for every byte count [b >= 1] the result of [humanizeBytes] has
    between 2 and 6 characters. *)
Theorem humanizeBytes_two_to_six (b : Z) :
  1 <= b < 2 ^ 63 ->
  exists str, humanizeBytes b = Some str /\ 2 <= len str <= 6.
Proof. intros Hb. apply humanizeBytes_length; lia. Qed.

Lemma humanizeBytes_two_to_six_witness :
  exists str, humanizeBytes 1536 = Some str /\ 2 <= len str <= 6.
Proof. apply (humanizeBytes_two_to_six 1536). lia. Defined.

(** C10: for every [int64] input, negative ones included, the scale
    exponent of [humanateBytes] is an index of the seven-entry suffix table:
    the lookup never fails and [humanizeBytes] returns a string. *)
Theorem scale_exponent_in_table (v : Z) :
  - 2 ^ 63 <= v < 2 ^ 63 ->
  (10 <= uint64_of_int64 v ->
   0 <= scale_exponent (uint64_of_int64 v) 1024 < Z.of_nat (length sizes_1024)
   /\ index_sizes sizes_1024 (scale_exponent (uint64_of_int64 v) 1024) <> None)
  /\ humanizeBytes v <> None.
Proof.
  intros Hv. split.
  - intros H10.
    assert (Hu : 10 <= uint64_of_int64 v < 2 ^ 64).
    { split; [exact H10|]. unfold uint64_of_int64.
      apply Z.mod_pos_bound. lia. }
    pose proof (scale_exponent_bounds _ Hu) as He.
    split; [cbn [length sizes_1024]; lia|].
    destruct (index_sizes_1024 _ He) as (suffix & -> & _). discriminate.
  - destruct (Z.eq_dec v 0) as [->|Hn]; [discriminate|].
    destruct (humanizeBytes_length v Hv Hn) as (str & -> & _). discriminate.
Qed.

Lemma scale_exponent_in_table_witness :
  (10 <= uint64_of_int64 (-1) ->
   0 <= scale_exponent (uint64_of_int64 (-1)) 1024 < Z.of_nat (length sizes_1024)
   /\ index_sizes sizes_1024 (scale_exponent (uint64_of_int64 (-1)) 1024) <> None)
  /\ humanizeBytes (-1) <> None.
Proof. apply (scale_exponent_in_table (-1)). lia. Defined.

(** C4: the values of the specification, the literal rendering below 10,
    and samples of the scaling: one decimal below 10 with rounding half up
    (1280 bytes are 1.25K), none from 10 on, a trailing [".0"] stripped. *)
Theorem humanizeBytes_values :
  humanizeBytes 0 = Some ZeroValue
  /\ humanizeBytes 7 = Some "7 B"
  /\ humanizeBytes 1536 = Some "1.5K"
  /\ humanizeBytes 1073741824 = Some "1G"
  /\ Forall (fun b => humanizeBytes b = Some (Itoa b +:+ " B"))
            [1; 2; 3; 4; 5; 6; 7; 8; 9]
  /\ humanizeBytes 1280 = Some "1.3K"
  /\ humanizeBytes 10000 = Some "9.8K"
  /\ humanizeBytes 10240 = Some "10K"
  /\ humanizeBytes 1048576 = Some "1M".
Proof.
  split; [vm_compute; reflexivity|].
  split; [vm_compute; reflexivity|].
  split; [vm_compute; reflexivity|].
  split; [vm_compute; reflexivity|].
  split; [repeat (constructor; [vm_compute; reflexivity|]); constructor|].
  split; [vm_compute; reflexivity|].
  split; [vm_compute; reflexivity|].
  split; vm_compute; reflexivity.
Qed.

(** ** RatioAnnotator *)

(** C6: with a limit of zero or less both annotators return the rendering
    of the used value alone. *)
Theorem pct_without_limit (used limit : Z) :
  limit <= 0 ->
  memPct used limit = humanizeBytes used
  /\ decimalPct used limit = decimal used.
Proof.
  intros Hl. apply Z.leb_le in Hl. unfold memPct, decimalPct.
  rewrite Hl. split; reflexivity.
Qed.

Lemma pct_without_limit_witness :
  (memPct 50 0 = humanizeBytes 50 /\ decimalPct 50 0 = decimal 50)
  /\ decimalPct 50 0 = ".05".
Proof.
  split; [apply (pct_without_limit 50 0); lia | vm_compute; reflexivity].
Defined.

(** ** DecimalScaler *)

(** C3 fails on the code: from 996 to 999 thousandths the two-decimal
    rendering rounds up to ["1.00"], which has no ["0."] prefix to strip, and
    the result [".1.00"] denotes no number; read up to its second point it
    would denote 0.1, below the value of [decimal 990]. *)
Lemma decimal_not_a_number :
  decimal 990 = ".99" /\ numeric_value (decimal 990) = Some (99 # 100)
  /\ decimal 996 = ".1.00" /\ numeric_value (decimal 996) = None
  /\ decimal 999 = ".1.00"
  /\ decimal 1000 = "1" /\ numeric_value (decimal 1000) = Some 1%Q.
Proof. vm_compute. repeat split; reflexivity. Qed.

(** * Further properties of the helpers *)

(** ** join, blank, check *)

Lemma app_empty_r' (a : string) : a +:+ "" = a.
Proof.
  induction a as [|x a IH]; [reflexivity|].
  rewrite app_cons. f_equal. exact IH.
Qed.

Lemma fold_left_join (sep : string) (rest : list string) (b0 : string) :
  fold_left (fun buff s => buff +:+ sep +:+ s) rest b0
  = strings_Join (b0 :: rest) sep.
Proof.
  revert b0. induction rest as [|s rest IH]; intros b0; [reflexivity|].
  cbn [fold_left]. rewrite IH.
  destruct rest as [|s' rest'].
  - reflexivity.
  - change (strings_Join ((b0 +:+ sep +:+ s) :: s' :: rest') sep)
      with ((b0 +:+ sep +:+ s) +:+ sep +:+ strings_Join (s' :: rest') sep).
    change (strings_Join (b0 :: s :: s' :: rest') sep)
      with (b0 +:+ sep +:+ (s +:+ sep +:+ strings_Join (s' :: rest') sep)).
    rewrite !app_assoc_s. reflexivity.
Qed.

Lemma join_Join (ss : list string) (sep : string) :
  join ss sep = strings_Join (non_blank ss) sep.
Proof.
  destruct ss as [|s [|s' rest]].
  - reflexivity.
  - unfold join, non_blank. cbn [List.filter].
    destruct (String.eqb s "") eqn:E; cbn [negb].
    + apply String.eqb_eq in E. subst s. reflexivity.
    + reflexivity.
  - unfold join. destruct (non_blank (s :: s' :: rest)) as [|b0 b]; [reflexivity|].
    apply fold_left_join.
Qed.

(** X1: [join] is [strings.Join] on the strings that are not empty: blanks
    leave no separator behind, whatever their number and place. *)
Theorem join_non_blank (ss : list string) (sep : string) :
  join ss sep = strings_Join (non_blank ss) sep.
Proof. apply join_Join. Qed.

Lemma blank_non_blank (ss : list string) :
  blank ss = true <-> non_blank ss = [].
Proof.
  unfold non_blank. induction ss as [|s ss IH]; [split; reflexivity|].
  cbn [blank List.filter]. destruct (String.eqb s ""); cbn [negb].
  - exact IH.
  - split; discriminate.
Qed.

Lemma strings_Join_empty (ss : list string) (sep : string) :
  Forall (fun s => s <> "") ss -> strings_Join ss sep = "" -> ss = [].
Proof.
  intros Hall H. destruct ss as [|s ss]; [reflexivity|].
  inversion Hall as [|? ? Hs _]; subst. exfalso. apply Hs.
  destruct ss as [|s' ss']; [exact H|].
  change (strings_Join (s :: s' :: ss') sep)
    with (s +:+ sep +:+ strings_Join (s' :: ss') sep) in H.
  destruct s; [reflexivity | discriminate H].
Qed.

(** X2: [join] returns the empty string exactly for the collections that
    [blank] accepts, the empty one included. *)
Theorem join_empty_iff_blank (ss : list string) (sep : string) :
  join ss sep = "" <-> blank ss = true.
Proof.
  rewrite join_Join, blank_non_blank. split.
  - apply strings_Join_empty. unfold non_blank.
    apply List.Forall_forall. intros s Hs. apply filter_In in Hs as [_ Hs].
    apply negb_true_iff in Hs. apply String.eqb_neq in Hs. exact Hs.
  - intros ->. reflexivity.
Qed.

(** X3: [check] substitutes once and for all, and with a substitute that is not
    empty, as those of [na] and [missing], the result is never empty. *)
Theorem check_never_empty (s sub : string) :
  sub <> "" ->
  check s sub <> ""
  /\ check (check s sub) sub = check s sub
  /\ (s <> "" -> check s sub = s)
  /\ na s <> "" /\ missing s <> "".
Proof.
  intros Hsub.
  assert (H : forall t u, u <> "" -> check t u <> "").
  { intros t u Hu. unfold check. destruct (String.eqb t "") eqn:E; [exact Hu|].
    apply String.eqb_neq in E. exact E. }
  split; [apply H; exact Hsub|]. split.
  - unfold check. destruct (String.eqb s "") eqn:E.
    + apply String.eqb_neq in Hsub. rewrite Hsub. reflexivity.
    + rewrite E. reflexivity.
  - split.
    + intros Hs. unfold check. apply String.eqb_neq in Hs. rewrite Hs. reflexivity.
    + split; apply H; discriminate.
Qed.

Lemma check_never_empty_witness :
  check "" "n/a" <> ""
  /\ check (check "" "n/a") "n/a" = check "" "n/a"
  /\ ("" <> "" -> check "" "n/a" = "")
  /\ na "" <> "" /\ missing "" <> "".
Proof. apply (check_never_empty "" "n/a"). discriminate. Defined.

(** ** mapToStr and mapToIfc *)

Lemma strings_Join_cons (x y : string) (l : list string) (sep : string) :
  strings_Join (x :: y :: l) sep = x +:+ sep +:+ strings_Join (y :: l) sep.
Proof. reflexivity. Qed.

Lemma mapToStr_loop_Join (m : gmap string string) (n i : Z) (kk : list string)
    (bb : string) :
  i + Z.of_nat (length kk) = n ->
  mapToStr_loop m n i kk bb
  = bb +:+ strings_Join (map (fun k => k +:+ "=" +:+ map_index m k) kk) ",".
Proof.
  revert i bb. induction kk as [|k rest IH]; intros i bb Hn.
  - cbn. symmetry. apply app_empty_r'.
  - cbn [mapToStr_loop]. cbv zeta. cbn [length] in Hn.
    destruct rest as [|k' rest'].
    + cbn [length] in Hn.
      destruct (i <? n - 1) eqn:E; [apply Z.ltb_lt in E; lia|]. reflexivity.
    + destruct (i <? n - 1) eqn:E.
      2:{ apply Z.ltb_ge in E. cbn [length] in Hn. lia. }
      rewrite IH by (cbn [length] in *; lia).
      cbn [map]. rewrite strings_Join_cons. rewrite !app_assoc_s. reflexivity.
Qed.

(** X5: [mapToStr] returns what [toSelector] returns on the entries taken in the
    order of their sorted keys, and that order is an iteration order of the
    map: the two serializers differ by the sort alone. *)
Theorem mapToStr_sorted_toSelector (m : gmap string string)
    (it : list (string * string)) :
  iteration m it ->
  iteration m (sorted_entries m it)
  /\ Sorted String.le (map fst (sorted_entries m it))
  /\ mapToStr m it = toSelector (sorted_entries m it).
Proof.
  intros Hit. unfold sorted_entries.
  assert (Hfst : map fst (map (fun k => (k, map_index m k))
                              (sort_Strings (map fst it)))
                 = sort_Strings (map fst it)).
  { rewrite map_map. cbn [fst]. apply map_id. }
  split; [|split].
  - unfold iteration in *. rewrite <- Hit.
    unfold sort_Strings. rewrite merge_sort_Permutation, map_map.
    assert (E : map (fun x => (x.1, map_index m x.1)) it = it).
    { rewrite <- (map_id it) at 2. apply map_ext_in. intros [k v] Hin.
      cbn [fst]. f_equal. unfold map_index.
      assert (Hm : (k, v) ∈ map_to_list m).
      { rewrite <- Hit. apply list_elem_of_In. exact Hin. }
      apply elem_of_map_to_list in Hm. rewrite Hm. reflexivity. }
    rewrite E. reflexivity.
  - rewrite Hfst. apply Sorted_merge_sort. apply _.
  - unfold mapToStr, toSelector. rewrite map_map. cbn [fst snd].
    destruct (Z.of_nat (size m) =? 0) eqn:E.
    + apply Z.eqb_eq in E. assert (Hm : m = ∅) by (apply map_size_empty_iff; lia).
      subst m. rewrite (iteration_empty it Hit). reflexivity.
    + cbv zeta. rewrite mapToStr_loop_Join by lia. reflexivity.
Qed.

Lemma mapToStr_sorted_toSelector_witness :
  let m : gmap string string := list_to_map [("c", "d"); ("a", "b")] in
  let it := [("c", "d"); ("a", "b")] in
  iteration m (sorted_entries m it)
  /\ Sorted String.le (map fst (sorted_entries m it))
  /\ mapToStr m it = toSelector (sorted_entries m it).
Proof.
  intros m it. apply (mapToStr_sorted_toSelector m it).
  unfold iteration, m, it. symmetry. apply map_to_list_to_map.
  apply (bool_decide_unpack _). vm_compute. reflexivity.
Defined.

Lemma mapToIfc_loop_body (mm : gmap string any) (n i : Z) (kk : list string)
    (s : string) :
  i + Z.of_nat (length kk) = n ->
  mapToIfc_loop mm n i kk s = s +:+ mapToIfc_body mm kk.
Proof.
  revert i s. induction kk as [|k rest IH]; intros i s Hn.
  - cbn. symmetry. apply app_empty_r'.
  - cbn [mapToIfc_loop mapToIfc_body]. cbn [length] in Hn.
    assert (Hrest : mapToIfc_loop mm n (i + 1) rest s = s +:+ mapToIfc_body mm rest)
      by (apply IH; lia).
    destruct (mm !! k) as [[| str | |  | ]|]; try exact Hrest.
    cbv zeta. destruct rest as [|k' rest'].
    + cbn [length] in Hn.
      destruct (i <? n - 1) eqn:E; [apply Z.ltb_lt in E; lia|].
      rewrite IH by (cbn [length]; lia). cbn [mapToIfc_body].
      rewrite !app_assoc_s. reflexivity.
    + destruct (i <? n - 1) eqn:E.
      2:{ apply Z.ltb_ge in E. cbn [length] in Hn. lia. }
      rewrite IH by (cbn [length] in *; lia). rewrite !app_assoc_s. reflexivity.
Qed.

Lemma string_pairs_cons (mm : gmap string any) (k : string) (rest : list string) :
  string_pairs mm (k :: rest)
  = (match mm !! k with
     | Some (AnyString str) => [k +:+ "=" +:+ str]
     | _ => []
     end ++ string_pairs mm rest)%list.
Proof. reflexivity. Qed.

Lemma string_pairs_last (mm : gmap string any) (kk : list string) :
  kk <> [] -> holds_string mm (List.last kk "") = true ->
  string_pairs mm kk <> [].
Proof.
  induction kk as [|k rest IH]; intros Hne Hl; [congruence|].
  rewrite string_pairs_cons. destruct rest as [|k' rest'].
  - cbn [List.last] in Hl. unfold holds_string in Hl.
    destruct (mm !! k) as [[| str | | | ]|]; try discriminate Hl. discriminate.
  - assert (Hr : string_pairs mm (k' :: rest') <> []).
    { apply IH; [discriminate | exact Hl]. }
    intros E. apply app_eq_nil in E as [_ E]. exact (Hr E).
Qed.

Lemma mapToIfc_body_Join (mm : gmap string any) (kk : list string) :
  mapToIfc_body mm kk
  = strings_Join (string_pairs mm kk) " " +:+ trailing_space mm kk.
Proof.
  induction kk as [|k rest IH]; [reflexivity|].
  cbn [mapToIfc_body]. unfold trailing_space in *.
  rewrite string_pairs_cons.
  destruct rest as [|k' rest'].
  - cbn [mapToIfc_body string_pairs flat_map List.last]. unfold holds_string.
    destruct (mm !! k) as [[| str | | | ]|]; cbn [app strings_Join];
      rewrite ?app_empty_r'; reflexivity.
  - change (List.last (k :: k' :: rest') "") with (List.last (k' :: rest') "").
    set (rest := k' :: rest') in *.
    destruct (mm !! k) as [[| str | | | ]|] eqn:Ek; cbn [app]; try exact IH.
    rewrite IH. destruct (string_pairs mm rest) as [|p ps] eqn:Ep.
    + destruct (holds_string mm (List.last rest "")) eqn:Eh.
      * exfalso. apply (string_pairs_last mm rest); [discriminate | exact Eh | exact Ep].
      * cbn [strings_Join]. rewrite !app_assoc_s. reflexivity.
    + rewrite strings_Join_cons. rewrite !app_assoc_s. reflexivity.
Qed.

Lemma string_pairs_empty (kk : list string) : string_pairs ∅ kk = [].
Proof.
  induction kk as [|k rest IH]; [reflexivity|].
  rewrite string_pairs_cons, lookup_empty, IH. reflexivity.
Qed.

(** X6: [mapToIfc] returns the [k=v] pairs of the string-valued entries in the
    order of the sorted keys, joined by one space, and then one more space
    exactly when a pair was emitted and the greatest key holds no string. *)
Theorem mapToIfc_pairs (mm : gmap string any) (it : list (string * any)) :
  mapToIfc (AnyMap mm) it
  = strings_Join (string_pairs mm (sort_Strings (map fst it))) " "
    +:+ trailing_space mm (sort_Strings (map fst it)).
Proof.
  unfold mapToIfc. destruct (Z.of_nat (size mm) =? 0) eqn:E.
  - apply Z.eqb_eq in E. assert (Hm : mm = ∅) by (apply map_size_empty_iff; lia).
    subst mm. unfold trailing_space. rewrite string_pairs_empty. reflexivity.
  - cbv zeta. rewrite mapToIfc_loop_body by lia.
    rewrite app_nil. apply mapToIfc_body_Join.
Qed.

(** ** Pad on strings that need no truncation *)

(** X11: when the string has no more bytes than the width, [Pad] appends spaces
    only and the result has exactly [width] bytes, whatever the library
    does. *)
Theorem Pad_byte_length
    (runewidth_Truncate : string -> Z -> string -> string)
    (s : string) (width : Z) :
  len s <= width ->
  Pad runewidth_Truncate s width = s +:+ strings_Repeat " " (width - len s)
  /\ len (Pad runewidth_Truncate s width) = width.
Proof.
  intros H.
  destruct (Pad_cases runewidth_Truncate s width) as (Heq & _ & Hlt).
  destruct (Z.eq_dec (len s) width) as [E|E]; [|apply Hlt; lia].
  rewrite (Heq E). replace (width - len s) with 0 by lia. unfold strings_Repeat.
  change (Z.to_nat 0) with 0%nat. cbn [repeat_nat].
  rewrite app_empty_r'. split; [reflexivity | exact E].
Qed.

Lemma Pad_byte_length_witness :
  Pad (Condition_Truncate true) "abc" 5 = "abc" +:+ strings_Repeat " " (5 - len "abc")
  /\ len (Pad (Condition_Truncate true) "abc" 5) = 5.
Proof. apply (Pad_byte_length (Condition_Truncate true) "abc" 5). vm_compute. discriminate. Defined.

(** ** runesToNum and the decimal numerals *)

Lemma wrap_small (bits z : Z) :
  0 < bits -> - 2 ^ (bits - 1) <= z < 2 ^ (bits - 1) -> wrap bits z = z.
Proof.
  intros Hb Hz. unfold wrap.
  assert (E : 2 ^ bits = 2 * 2 ^ (bits - 1)).
  { replace bits with (Z.succ (bits - 1)) at 1 by lia.
    apply Z.pow_succ_r. lia. }
  rewrite Z.mod_small by lia. lia.
Qed.

Lemma byte_val_digit_char (n : Z) :
  byte_val (digit_char (n mod 10)) = 48 + n mod 10.
Proof.
  pose proof (Z.mod_pos_bound n 10 ltac:(lia)) as H.
  assert (E : n mod 10 = 0 \/ n mod 10 = 1 \/ n mod 10 = 2 \/ n mod 10 = 3
              \/ n mod 10 = 4 \/ n mod 10 = 5 \/ n mod 10 = 6 \/ n mod 10 = 7
              \/ n mod 10 = 8 \/ n mod 10 = 9) by lia.
  repeat destruct E as [E|E]; rewrite E; reflexivity.
Qed.

(** The characters of [digits_fuel] are the digits of [lsd_digits], most
    significant first. *)
Lemma digits_fuel_lsd (fuel : nat) (n : Z) (acc : string) :
  list_ascii_of_string (digits_fuel fuel n acc)
  = (rev (map digit_char (lsd_digits fuel n)) ++ list_ascii_of_string acc)%list.
Proof.
  revert n acc. induction fuel as [|fuel IH]; intros n acc; [reflexivity|].
  cbn [digits_fuel lsd_digits]. cbv zeta. destruct (n <? 10).
  - reflexivity.
  - rewrite IH. cbn [map rev list_ascii_of_string].
    rewrite <- app_assoc. reflexivity.
Qed.

Lemma lsd_digits_value (fuel : nat) (n r m : Z) :
  0 <= n < 10 ^ Z.of_nat fuel -> 0 <= r -> 0 < m -> r + m * n < 2 ^ 63 ->
  runesToNum_loop (map (fun d => byte_val (digit_char d)) (lsd_digits fuel n)) r m
  = r + m * n.
Proof.
  revert n r m. induction fuel as [|fuel IH]; intros n r m Hn Hr Hm Hb.
  - change (10 ^ Z.of_nat 0) with 1 in Hn. assert (n = 0) by lia. subst n.
    cbn. lia.
  - cbn [lsd_digits map runesToNum_loop]. cbv zeta.
    rewrite byte_val_digit_char.
    pose proof (Z.mod_pos_bound n 10 ltac:(lia)) as Hd.
    pose proof (Z.div_mod n 10 ltac:(lia)) as Hdm.
    assert (Hdle : n mod 10 <= n) by (apply Z.mod_le; lia).
    replace (48 + n mod 10 - 48) with (n mod 10) by lia.
    rewrite (wrap_small 32 (n mod 10)) by (change (2 ^ (32 - 1)) with 2147483648; lia).
    assert (Hprod : 0 <= n mod 10 * m <= m * n) by nia.
    change (2 ^ 63) with 9223372036854775808 in Hb.
    rewrite (wrap_small 64 (n mod 10 * m))
      by (change (2 ^ (64 - 1)) with 9223372036854775808; lia).
    rewrite (wrap_small 64 (r + n mod 10 * m))
      by (change (2 ^ (64 - 1)) with 9223372036854775808; lia).
    destruct (n <? 10) eqn:E.
    + apply Z.ltb_lt in E. rewrite Z.mod_small by lia. cbn [map runesToNum_loop]. lia.
    + apply Z.ltb_ge in E.
      assert (Hm10 : m * 10 <= m * n) by nia.
      rewrite (wrap_small 64 (m * 10))
        by (change (2 ^ (64 - 1)) with 9223372036854775808; lia).
      assert (Hq : 0 <= n / 10 < 10 ^ Z.of_nat fuel).
      { split; [apply Z.div_pos; lia|].
        apply Z.div_lt_upper_bound; [lia|].
        replace (Z.of_nat (S fuel)) with (Z.succ (Z.of_nat fuel)) in Hn by lia.
        rewrite Z.pow_succ_r in Hn by lia. lia. }
      rewrite IH; try lia; try nia.
Qed.

Lemma FormatUint_fuel (n : Z) :
  0 <= n -> n < 10 ^ Z.of_nat (S (Z.to_nat (Z.log2 n))).
Proof.
  intros Hn. destruct (Z.eq_dec n 0) as [->|Hz]; [reflexivity|].
  destruct (Z.log2_spec n ltac:(lia)) as [_ H].
  pose proof (Z.log2_nonneg n) as Hl.
  replace (Z.of_nat (S (Z.to_nat (Z.log2 n)))) with (Z.succ (Z.log2 n)) by lia.
  eapply Z.lt_le_trans; [exact H|].
  apply Z.pow_le_mono_l. lia.
Qed.

(** X12: [runesToNum] reads back what [IntToStr] writes: the round trip holds
    for every non-negative [int64], without overflow of the accumulators
    that count. *)
Theorem runesToNum_IntToStr (n : Z) :
  0 <= n < 2 ^ 63 -> runesToNum (ascii_runes (IntToStr n)) = n.
Proof.
  intros Hn. unfold runesToNum, ascii_runes, IntToStr, Itoa.
  destruct (n <? 0) eqn:E; [apply Z.ltb_lt in E; lia|].
  unfold FormatUint. rewrite digits_fuel_lsd. cbn [list_ascii_of_string].
  rewrite app_nil_r, map_rev, rev_involutive, map_map.
  rewrite lsd_digits_value; try lia.
  split; [lia | apply FormatUint_fuel; lia].
Qed.

Lemma runesToNum_IntToStr_witness :
  runesToNum (ascii_runes (IntToStr 9223372036854775807)) = 9223372036854775807.
Proof. apply (runesToNum_IntToStr 9223372036854775807). lia. Defined.

(** ** Decimal numerals read back *)

Lemma digits_value_fold (s : string) (acc : Z) :
  digits_value s acc
  = fold_left (fun a c => a * 10 + (byte_val c - 48)) (list_ascii_of_string s) acc.
Proof.
  revert acc. induction s as [|c s IH]; intros acc; [reflexivity|].
  cbn [digits_value list_ascii_of_string fold_left]. apply IH.
Qed.

Lemma lsd_digits_fold (fuel : nat) (n : Z) :
  0 <= n < 10 ^ Z.of_nat fuel ->
  fold_left (fun a c => a * 10 + (byte_val c - 48))
            (rev (map digit_char (lsd_digits fuel n))) 0 = n.
Proof.
  revert n. induction fuel as [|fuel IH]; intros n Hn.
  - change (10 ^ Z.of_nat 0) with 1 in Hn. cbn. lia.
  - cbn [lsd_digits map rev]. rewrite fold_left_app. cbn [fold_left].
    rewrite byte_val_digit_char.
    pose proof (Z.div_mod n 10 ltac:(lia)) as Hdm.
    destruct (n <? 10) eqn:E.
    + apply Z.ltb_lt in E. cbn [map rev fold_left].
      rewrite Z.mod_small by lia. lia.
    + apply Z.ltb_ge in E. rewrite IH; [lia|].
      split; [apply Z.div_pos; lia|].
      apply Z.div_lt_upper_bound; [lia|].
      replace (Z.of_nat (S fuel)) with (Z.succ (Z.of_nat fuel)) in Hn by lia.
      rewrite Z.pow_succ_r in Hn by lia. lia.
Qed.

Lemma digits_value_FormatUint (n : Z) : 0 <= n -> digits_value (FormatUint n) 0 = n.
Proof.
  intros Hn. rewrite digits_value_fold. unfold FormatUint.
  rewrite digits_fuel_lsd. cbn [list_ascii_of_string]. rewrite app_nil_r.
  apply lsd_digits_fold. split; [lia | apply FormatUint_fuel; lia].
Qed.

Lemma split_point_digits (s : string) :
  all_digits s = true -> split_point s = (s, None).
Proof.
  induction s as [|c s IH]; [reflexivity|]. cbn [all_digits split_point].
  intros H. apply andb_true_iff in H as [H Hs].
  apply andb_true_iff in H as [H1 H2]. apply Z.leb_le in H1.
  destruct (byte_val c =? 46) eqn:E; [apply Z.eqb_eq in E; lia|].
  rewrite (IH Hs). reflexivity.
Qed.

Lemma FormatUint_not_empty (n : Z) : String.eqb (FormatUint n) "" = false.
Proof.
  destruct (length_digits_fuel_ge (S (Z.to_nat (Z.log2 n))) n "" ltac:(lia))
    as [H _].
  fold (FormatUint n) in H. destruct (FormatUint n); [cbn in H; lia | reflexivity].
Qed.

Lemma numeric_value_FormatUint (n : Z) :
  0 <= n -> numeric_value (FormatUint n) = Some (inject_Z n).
Proof.
  intros Hn. unfold numeric_value.
  rewrite (split_point_digits _ (all_digits_FormatUint n)).
  rewrite all_digits_FormatUint, FormatUint_not_empty. cbn [andb negb].
  rewrite digits_value_FormatUint by exact Hn. reflexivity.
Qed.

(** ** DecimalScaler: the tiers below a hundredth and from ten on *)

Lemma Qltb_ge (x y : Q) : (y <= x)%Q -> Qltb x y = false.
Proof.
  intros H. unfold Qltb. apply negb_false_iff. apply Qle_bool_iff. exact H.
Qed.

Lemma Qltb_lt (x y : Q) : (x < y)%Q -> Qltb x y = true.
Proof.
  intros H. unfold Qltb. apply negb_true_iff.
  destruct (Qle_bool y x) eqn:E; [|reflexivity].
  apply Qle_bool_iff in E. exfalso. apply (Qlt_irrefl x).
  apply (Qlt_le_trans _ _ _ H E).
Qed.

Lemma thousandths_mono (a b : Z) :
  a <= b ->
  (fdiv (float64_of_int a) 1000 <= fdiv (float64_of_int b) 1000)%Q.
Proof.
  intros H. unfold fdiv, float64_of_int, Qdiv. apply RN_mono.
  apply Qmult_le_compat_r; [|discriminate].
  apply RN_mono. rewrite <- Zle_Qle. exact H.
Qed.

(** [%.0f] of a value that is not negative. *)
Lemma Sprintf_f_0_whole (x : Q) :
  (0 <= x)%Q -> Sprintf_f 0 x = FormatUint (rne x).
Proof.
  intros Hx. unfold Sprintf_f. cbv zeta.
  rewrite (Qltb_nonneg x Hx), (Qabs_nonneg_eq x Hx).
  change (inject_Z (10 ^ Z.of_nat 0)) with 1%Q.
  rewrite (rne_comp (x * 1) x) by ring.
  pose proof (FormatUint_not_empty (rne x)) as Hne.
  destruct (FormatUint (rne x)) as [|c s] eqn:E; [discriminate Hne|].
  cbn [String.length Nat.sub repeat_nat]. apply app_nil.
Qed.

Lemma decimal_zero_tier (v : Z) : v <= 9 -> decimal v = "0".
Proof.
  intros Hv. unfold decimal. cbv zeta.
  pose proof (thousandths_mono v 9 Hv) as H9.
  assert (Hc : (fdiv (float64_of_int 9) 1000 < literal 1 (-2))%Q) by qlt_compute.
  assert (H0 : Qltb 0 (literal 1 (-2)) = true) by (vm_compute; reflexivity).
  destruct (Qltb (fdiv (float64_of_int v) 1000) 0).
  - rewrite H0. reflexivity.
  - rewrite Qltb_lt; [reflexivity|].
    apply (Qle_lt_trans _ _ _ H9 Hc).
Qed.

(** X16: Up to nine thousandths, and for every negative argument, [decimal]
    returns ["0"]. *)
Theorem decimal_below_a_hundredth (v : Z) : v <= 9 -> decimal v = "0".
Proof. apply decimal_zero_tier. Qed.

Lemma decimal_below_a_hundredth_witness : decimal (-5000) = "0".
Proof. apply (decimal_below_a_hundredth (-5000)). lia. Defined.

Lemma decimal_whole_value (v : Z) :
  10000 <= v ->
  decimal v = FormatUint (rne (fdiv (float64_of_int v) 1000))
  /\ 10 <= rne (fdiv (float64_of_int v) 1000).
Proof.
  intros Hv. unfold decimal. cbv zeta.
  pose proof (thousandths_mono 10000 v Hv) as H.
  assert (Hc : (10 <= fdiv (float64_of_int 10000) 1000)%Q) by qle_compute.
  assert (Hl : (literal 1 (-2) <= 10)%Q) by qle_compute.
  assert (H10 : (10 <= fdiv (float64_of_int v) 1000)%Q)
    by (apply (Qle_trans _ _ _ Hc H)).
  rewrite (Qltb_ge (fdiv (float64_of_int v) 1000) 0) by lra.
  rewrite (Qltb_ge (fdiv (float64_of_int v) 1000) (literal 1 (-2)))
    by (apply (Qle_trans _ _ _ Hl H10)).
  rewrite (Qltb_ge (fdiv (float64_of_int v) 1000) 1) by lra.
  rewrite (Qltb_ge (fdiv (float64_of_int v) 1000) 10) by exact H10.
  split.
  - apply Sprintf_f_0_whole. lra.
  - apply rne_mono in H10. change 10%Q with (inject_Z 10) in H10.
    rewrite rne_Z in H10. exact H10.
Qed.

(** X17: From ten units on [decimal] prints a whole number, without a point. *)
Theorem decimal_whole (v : Z) :
  10000 <= v ->
  exists n : Z,
    10 <= n /\ decimal v = FormatUint n
    /\ numeric_value (decimal v) = Some (inject_Z n).
Proof.
  intros Hv. destruct (decimal_whole_value v Hv) as [E B].
  exists (rne (fdiv (float64_of_int v) 1000)).
  split; [exact B|]. split; [exact E|].
  rewrite E. apply numeric_value_FormatUint. lia.
Qed.

Lemma decimal_whole_witness :
  exists n : Z,
    10 <= n /\ decimal 12345 = FormatUint n
    /\ numeric_value (decimal 12345) = Some (inject_Z n).
Proof. apply (decimal_whole 12345). lia. Defined.

(** [%.1f] and [%.2f] show of a value only its number of tenths and of
    hundredths. *)
Lemma Sprintf_f_1_tenths (x : Q) :
  (0 <= x)%Q -> Sprintf_f 1 x = Sprintf_f 1 (inject_Z (rne (x * 10)) / 10).
Proof.
  intros Hx.
  assert (Hm : 0 <= rne (x * 10)).
  { rewrite <- (rne_Z 0). apply rne_mono. change (inject_Z 0) with 0%Q. lra. }
  set (m := rne (x * 10)) in *.
  assert (Hq : (0 <= inject_Z m / 10)%Q).
  { apply Qle_shift_div_l; [reflexivity|]. rewrite Zle_Qle in Hm.
    change (inject_Z 0) with 0%Q in Hm. lra. }
  assert (Em : rne (inject_Z m / 10 * 10) = m).
  { rewrite (rne_comp _ (inject_Z m)) by field. apply rne_Z. }
  unfold Sprintf_f. cbv zeta.
  rewrite (Qltb_nonneg x Hx), (Qltb_nonneg _ Hq).
  rewrite (Qabs_nonneg_eq x Hx), (Qabs_nonneg_eq _ Hq).
  change (inject_Z (10 ^ Z.of_nat 1)) with 10%Q.
  fold m. rewrite Em. reflexivity.
Qed.

Lemma Sprintf_f_2_hundredths (x : Q) :
  (0 <= x)%Q -> Sprintf_f 2 x = Sprintf_f 2 (inject_Z (rne (x * 100)) / 100).
Proof.
  intros Hx.
  assert (Hm : 0 <= rne (x * 100)).
  { rewrite <- (rne_Z 0). apply rne_mono. change (inject_Z 0) with 0%Q. lra. }
  set (m := rne (x * 100)) in *.
  assert (Hq : (0 <= inject_Z m / 100)%Q).
  { apply Qle_shift_div_l; [reflexivity|]. rewrite Zle_Qle in Hm.
    change (inject_Z 0) with 0%Q in Hm. lra. }
  assert (Em : rne (inject_Z m / 100 * 100) = m).
  { rewrite (rne_comp _ (inject_Z m)) by field. apply rne_Z. }
  unfold Sprintf_f. cbv zeta.
  rewrite (Qltb_nonneg x Hx), (Qltb_nonneg _ Hq).
  rewrite (Qabs_nonneg_eq x Hx), (Qabs_nonneg_eq _ Hq).
  change (inject_Z (10 ^ Z.of_nat 2)) with 100%Q.
  fold m. rewrite Em. reflexivity.
Qed.

Lemma check_tenths :
  forallb (fun m => match numeric_value (one_decimal m) with
                    | Some q => Qeq_bool q (m # 10)
                    | None => false
                    end) tenths = true.
Proof. vm_compute. reflexivity. Qed.

Lemma check_hundredths :
  forallb (fun m => match numeric_value (two_decimals m) with
                    | Some q => Qeq_bool q (m # 100)
                    | None => false
                    end) hundredths = true.
Proof. vm_compute. reflexivity. Qed.

Lemma hundredths_bounds (v : Z) :
  10 <= v <= 995 -> 1 <= rne (fdiv (float64_of_int v) 1000 * 100) <= 99.
Proof.
  intros Hv.
  pose proof (thousandths_mono 10 v ltac:(lia)) as H1.
  pose proof (thousandths_mono v 995 ltac:(lia)) as H2.
  assert (C1 : rne (fdiv (float64_of_int 10) 1000 * 100) = 1)
    by (vm_compute; reflexivity).
  assert (C2 : rne (fdiv (float64_of_int 995) 1000 * 100) = 99)
    by (vm_compute; reflexivity).
  assert (R1 : rne (fdiv (float64_of_int 10) 1000 * 100)
               <= rne (fdiv (float64_of_int v) 1000 * 100)) by (apply rne_mono; lra).
  assert (R2 : rne (fdiv (float64_of_int v) 1000 * 100)
               <= rne (fdiv (float64_of_int 995) 1000 * 100)) by (apply rne_mono; lra).
  rewrite C1 in R1. rewrite C2 in R2. split; assumption.
Qed.

Lemma tenths_bounds (v : Z) :
  996 <= v <= 9999 -> 10 <= rne (fdiv (float64_of_int v) 1000 * 10) <= 100.
Proof.
  intros Hv.
  pose proof (thousandths_mono 996 v ltac:(lia)) as H1.
  pose proof (thousandths_mono v 9999 ltac:(lia)) as H2.
  assert (C1 : rne (fdiv (float64_of_int 996) 1000 * 10) = 10)
    by (vm_compute; reflexivity).
  assert (C2 : rne (fdiv (float64_of_int 9999) 1000 * 10) = 100)
    by (vm_compute; reflexivity).
  assert (R1 : rne (fdiv (float64_of_int 996) 1000 * 10)
               <= rne (fdiv (float64_of_int v) 1000 * 10)) by (apply rne_mono; lra).
  assert (R2 : rne (fdiv (float64_of_int v) 1000 * 10)
               <= rne (fdiv (float64_of_int 9999) 1000 * 10)) by (apply rne_mono; lra).
  rewrite C1 in R1. rewrite C2 in R2. split; assumption.
Qed.

Lemma decimal_hundredths_value (v : Z) :
  10 <= v <= 995 ->
  exists q : Q,
    numeric_value (decimal v) = Some q
    /\ (q == rne (fdiv (float64_of_int v) 1000 * 100) # 100)%Q.
Proof.
  intros Hv. pose proof (hundredths_bounds v Hv) as Hm.
  unfold decimal. cbv zeta.
  pose proof (thousandths_mono 10 v ltac:(lia)) as H1.
  pose proof (thousandths_mono v 995 ltac:(lia)) as H2.
  assert (C0 : (0 <= literal 1 (-2))%Q) by qle_compute.
  assert (C1 : (literal 1 (-2) <= fdiv (float64_of_int 10) 1000)%Q) by qle_compute.
  assert (C2 : (fdiv (float64_of_int 995) 1000 < 1)%Q) by qlt_compute.
  set (vf := fdiv (float64_of_int v) 1000) in *.
  assert (B1 : (literal 1 (-2) <= vf)%Q) by (apply (Qle_trans _ _ _ C1 H1)).
  assert (B0 : (0 <= vf)%Q) by (apply (Qle_trans _ _ _ C0 B1)).
  assert (B2 : (vf < 1)%Q) by (apply (Qle_lt_trans _ _ _ H2 C2)).
  rewrite (Qltb_ge vf 0 B0). cbv iota.
  rewrite (Qltb_ge vf (literal 1 (-2)) B1), (Qltb_lt vf 1 B2). cbv iota.
  rewrite (Sprintf_f_2_hundredths vf B0).
  set (m := rne (vf * 100)) in *.
  pose proof check_hundredths as Hc. rewrite forallb_forall in Hc.
  assert (Hin : In m hundredths).
  { unfold hundredths. rewrite <- (Z2Nat.id m) by lia. apply in_map. apply in_seq. lia. }
  specialize (Hc m Hin). cbv beta zeta in Hc.
  lazymatch goal with
  | |- exists q, numeric_value ?X = _ /\ _ =>
      destruct (numeric_value X) as [q|]; [|discriminate Hc]
  end.
  apply Qeq_bool_iff in Hc.
  exists q. split; [reflexivity | exact Hc].
Qed.

Lemma decimal_tenths_value (v : Z) :
  1000 <= v <= 9999 ->
  exists q : Q,
    numeric_value (decimal v) = Some q
    /\ (q == rne (fdiv (float64_of_int v) 1000 * 10) # 10)%Q.
Proof.
  intros Hv. pose proof (tenths_bounds v ltac:(lia)) as Hm.
  unfold decimal. cbv zeta.
  pose proof (thousandths_mono 1000 v ltac:(lia)) as H1.
  pose proof (thousandths_mono v 9999 ltac:(lia)) as H2.
  assert (C1 : (1 <= fdiv (float64_of_int 1000) 1000)%Q) by qle_compute.
  assert (C2 : (fdiv (float64_of_int 9999) 1000 < 10)%Q) by qlt_compute.
  assert (Hl : (literal 1 (-2) <= 1)%Q) by qle_compute.
  set (vf := fdiv (float64_of_int v) 1000) in *.
  assert (B1 : (1 <= vf)%Q) by (apply (Qle_trans _ _ _ C1 H1)).
  assert (B2 : (vf < 10)%Q) by (apply (Qle_lt_trans _ _ _ H2 C2)).
  rewrite (Qltb_ge vf 0) by lra. cbv iota.
  rewrite (Qltb_ge vf (literal 1 (-2))) by (apply (Qle_trans _ _ _ Hl B1)).
  rewrite (Qltb_ge vf 1) by exact B1.
  rewrite (Qltb_lt vf 10) by exact B2. cbv iota.
  rewrite (Sprintf_f_1_tenths vf) by lra.
  set (m := rne (vf * 10)) in *.
  pose proof check_tenths as Hc. rewrite forallb_forall in Hc.
  assert (Hin : In m tenths).
  { unfold tenths. rewrite <- (Z2Nat.id m) by lia. apply in_map. apply in_seq. lia. }
  specialize (Hc m Hin). cbv beta in Hc.
  destruct (numeric_value (one_decimal m)) as [q|]; [|discriminate Hc].
  apply Qeq_bool_iff in Hc.
  exists q. split; [reflexivity | exact Hc].
Qed.

(** Outside the arguments from 996 to 999 [decimal] prints the numeral of
    [printed_value]. *)
Lemma decimal_printed_value (v : Z) :
  v <= 995 \/ 1000 <= v ->
  exists q : Q,
    numeric_value (decimal v) = Some q /\ (q == printed_value v)%Q.
Proof.
  intros Hv. unfold printed_value.
  destruct (Z.leb_spec v 9) as [T1|T1].
  { rewrite (decimal_zero_tier v T1). exists 0%Q. split; reflexivity. }
  destruct (Z.leb_spec v 995) as [T2|T2].
  { apply decimal_hundredths_value. lia. }
  destruct (Z.leb_spec v 9999) as [T3|T3].
  { apply decimal_tenths_value. lia. }
  destruct (decimal_whole_value v ltac:(lia)) as [E B].
  exists (inject_Z (rne (fdiv (float64_of_int v) 1000))).
  split; [|reflexivity].
  rewrite E. apply numeric_value_FormatUint. lia.
Qed.

Lemma printed_value_mono (v1 v2 : Z) :
  v1 <= v2 -> (printed_value v1 <= printed_value v2)%Q.
Proof.
  intros H12. pose proof (thousandths_mono v1 v2 H12) as Hvf.
  assert (M0 : rne (fdiv (float64_of_int v1) 1000)
               <= rne (fdiv (float64_of_int v2) 1000)) by (apply rne_mono; exact Hvf).
  assert (M1 : rne (fdiv (float64_of_int v1) 1000 * 10)
               <= rne (fdiv (float64_of_int v2) 1000 * 10)) by (apply rne_mono; lra).
  assert (M2 : rne (fdiv (float64_of_int v1) 1000 * 100)
               <= rne (fdiv (float64_of_int v2) 1000 * 100)) by (apply rne_mono; lra).
  unfold printed_value.
  destruct (Z.leb_spec v1 9) as [A1|A1], (Z.leb_spec v1 995) as [A2|A2],
           (Z.leb_spec v1 9999) as [A3|A3], (Z.leb_spec v2 9) as [B1|B1],
           (Z.leb_spec v2 995) as [B2|B2], (Z.leb_spec v2 9999) as [B3|B3];
    try lia;
    try (pose proof (hundredths_bounds v1 ltac:(lia)));
    try (pose proof (hundredths_bounds v2 ltac:(lia)));
    try (pose proof (tenths_bounds v1 ltac:(lia)));
    try (pose proof (tenths_bounds v2 ltac:(lia)));
    try (pose proof (proj2 (decimal_whole_value v1 ltac:(lia))));
    try (pose proof (proj2 (decimal_whole_value v2 ltac:(lia))));
    unfold Qle; cbn [Qnum Qden inject_Z]; lia.
Qed.

(** X18: Outside the arguments from 996 to 999 [decimal] prints a numeral, and
    a greater argument never prints a smaller number. *)
Theorem decimal_monotone (v1 v2 : Z) :
  v1 <= v2 ->
  v1 <= 995 \/ 1000 <= v1 ->
  v2 <= 995 \/ 1000 <= v2 ->
  exists q1 q2 : Q,
    numeric_value (decimal v1) = Some q1
    /\ numeric_value (decimal v2) = Some q2
    /\ (q1 <= q2)%Q.
Proof.
  intros H12 H1 H2.
  destruct (decimal_printed_value v1 H1) as (q1 & E1 & V1).
  destruct (decimal_printed_value v2 H2) as (q2 & E2 & V2).
  exists q1, q2. split; [exact E1|]. split; [exact E2|].
  rewrite V1, V2. apply printed_value_mono. exact H12.
Qed.

Lemma decimal_monotone_witness :
  exists q1 q2 : Q,
    numeric_value (decimal 995) = Some q1
    /\ numeric_value (decimal 1000) = Some q2
    /\ (q1 <= q2)%Q.
Proof. apply (decimal_monotone 995 1000); lia. Defined.

(** X22: [decimal] prints a string that is no numeral for the arguments from
    996 to 999, which it prints as [".1.00"], and for no other argument. *)
Theorem decimal_malformed_iff (v : Z) :
  numeric_value (decimal v) = None <-> 996 <= v <= 999.
Proof.
  split.
  - intros H. destruct (Z.le_gt_cases v 995) as [L|L].
    + destruct (decimal_printed_value v (or_introl L)) as (q & E & _). congruence.
    + destruct (Z.le_gt_cases 1000 v) as [U|U]; [|lia].
      destruct (decimal_printed_value v (or_intror U)) as (q & E & _). congruence.
  - intros Hv.
    assert (E : v = 996 \/ v = 997 \/ v = 998 \/ v = 999) by lia.
    destruct E as [E|[E|[E|E]]]; subst v; vm_compute; reflexivity.
Qed.

(** ** RatioAnnotator: the percentage of a value within its limit *)

Lemma float64_ratio (v l : Z) :
  0 <= v <= l -> 1 <= l ->
  (0 <= fmul (fdiv (float64_of_int v) (float64_of_int l)) 100 <= 100)%Q.
Proof.
  intros Hv Hl. unfold fmul, fdiv.
  destruct (float64_of_int_bounds 0 v l ltac:(lia)) as [X1 X2].
  fold (float64_of_int l) in X2.
  assert (X0 : (RN (inject_Z 0) == 0)%Q) by (vm_compute; reflexivity).
  assert (Y : (0 < float64_of_int l)%Q).
  { unfold float64_of_int. apply RN_pos. change 0%Q with (inject_Z 0).
    rewrite <- Zlt_Qlt. lia. }
  set (x := float64_of_int v) in *. set (y := float64_of_int l) in *.
  assert (Q0 : (0 <= x / y)%Q).
  { apply Qle_shift_div_l; [exact Y|]. lra. }
  assert (Q1 : (x / y <= 1)%Q).
  { apply Qle_shift_div_r; [exact Y|]. lra. }
  assert (R0 : (RN 0 == 0)%Q) by (vm_compute; reflexivity).
  assert (R1 : (RN 1 == 1)%Q) by (vm_compute; reflexivity).
  assert (R100 : (RN 100 == 100)%Q) by (vm_compute; reflexivity).
  apply RN_mono in Q0, Q1.
  assert (P0 : (0 <= RN (x / y) * 100)%Q) by lra.
  assert (P1 : (RN (x / y) * 100 <= 100)%Q) by lra.
  apply RN_mono in P0, P1. lra.
Qed.

Lemma float64_ratio_full (l : Z) :
  1 <= l ->
  (fmul (fdiv (float64_of_int l) (float64_of_int l)) 100 == 100)%Q.
Proof.
  intros Hl. unfold fmul, fdiv.
  assert (Y : (0 < float64_of_int l)%Q).
  { unfold float64_of_int. apply RN_pos. change 0%Q with (inject_Z 0).
    rewrite <- Zlt_Qlt. lia. }
  set (y := float64_of_int l) in *.
  assert (Q1 : (y / y == 1)%Q) by (field; lra).
  assert (R1 : (RN 1 == 1)%Q) by (vm_compute; reflexivity).
  assert (R100 : (RN 100 == 100)%Q) by (vm_compute; reflexivity).
  apply RN_comp in Q1.
  assert (P : (RN (y / y) * 100 == 100)%Q) by lra.
  apply RN_comp in P. lra.
Qed.

Lemma float64_ratio_none (l : Z) :
  (fmul (fdiv (float64_of_int 0) (float64_of_int l)) 100 == 0)%Q.
Proof.
  unfold fmul, fdiv.
  assert (X0 : float64_of_int 0 = 0%Q) by (vm_compute; reflexivity).
  rewrite X0.
  rewrite (RN_0 (0 / float64_of_int l)) by (unfold Qdiv; apply Qmult_0_l).
  rewrite (RN_0 (0 * 100)) by reflexivity. reflexivity.
Qed.

(** X19: A value within its limit is annotated with a whole percentage from 0
    to 100: 100 when the value is the limit, 0 when it is zero. *)
Theorem pct_within_limit (v l : Z) :
  0 <= v <= l -> 1 <= l ->
  exists n : Z,
    0 <= n <= 100
    /\ pct_str v l = "(" +:+ FormatUint n +:+ "%)"
    /\ decimalPct v l = decimal v +:+ "/" +:+ decimal l +:+ "(" +:+ FormatUint n +:+ "%)"
    /\ (forall vStr lStr : string,
          humanizeBytes v = Some vStr -> humanizeBytes l = Some lStr ->
          memPct v l
          = Some (vStr +:+ "/" +:+ lStr +:+ "(" +:+ FormatUint n +:+ "%)"))
    /\ (v = l -> n = 100) /\ (v = 0 -> n = 0).
Proof.
  intros Hv Hl. destruct (float64_ratio v l Hv Hl) as [P0 P1].
  exists (rne (fmul (fdiv (float64_of_int v) (float64_of_int l)) 100)).
  assert (Hp : pct_str v l
               = "(" +:+ FormatUint (rne (fmul (fdiv (float64_of_int v)
                                                     (float64_of_int l)) 100))
                     +:+ "%)").
  { unfold pct_str. cbv zeta. rewrite (Sprintf_f_0_whole _ P0). reflexivity. }
  split.
  { apply rne_between; [exact P0 | exact P1]. }
  split; [exact Hp|]. split.
  { unfold decimalPct. destruct (l <=? 0) eqn:E; [apply Z.leb_le in E; lia|].
    rewrite Hp. reflexivity. }
  split.
  { intros vStr lStr Ev El. unfold memPct.
    destruct (l <=? 0) eqn:E; [apply Z.leb_le in E; lia|].
    rewrite Ev, El, Hp. reflexivity. }
  split.
  - intros ->. rewrite (rne_comp _ _ (float64_ratio_full l Hl)).
    apply (rne_Z 100).
  - intros ->. rewrite (rne_comp _ _ (float64_ratio_none l)).
    apply (rne_Z 0).
Qed.

Lemma pct_within_limit_witness :
  exists n : Z,
    0 <= n <= 100
    /\ pct_str 250 1000 = "(" +:+ FormatUint n +:+ "%)"
    /\ decimalPct 250 1000
       = decimal 250 +:+ "/" +:+ decimal 1000 +:+ "(" +:+ FormatUint n +:+ "%)"
    /\ (forall vStr lStr : string,
          humanizeBytes 250 = Some vStr -> humanizeBytes 1000 = Some lStr ->
          memPct 250 1000
          = Some (vStr +:+ "/" +:+ lStr +:+ "(" +:+ FormatUint n +:+ "%)"))
    /\ (250 = 1000 -> n = 100) /\ (250 = 0 -> n = 0).
Proof. apply (pct_within_limit 250 1000); lia. Defined.

(** ** Exact conversions and operations of float64 *)

(** A number with a significand below [2^53] is a binary64 number. *)
Lemma RN_exact (n e : Z) :
  0 < n < 2 ^ 53 -> (RN (inject_Z n * pow2 e) == inject_Z n * pow2 e)%Q.
Proof.
  intros Hn. pose proof (pow2_pos e) as Pe.
  assert (N0 : (0 < inject_Z n)%Q).
  { change 0%Q with (inject_Z 0). rewrite <- Zlt_Qlt. lia. }
  assert (N1 : (inject_Z n < inject_Z (2 ^ 53))%Q).
  { rewrite <- Zlt_Qlt. lia. }
  set (q := (inject_Z n * pow2 e)%Q).
  assert (Hq : (0 < q)%Q) by (unfold q; nra).
  rewrite (RN_pos_unfold q Hq).
  destruct (flog2_spec q Hq) as [F1 _]. set (E := flog2 q) in *.
  assert (HE : E < 53 + e).
  { apply pow2_lt_inv. rewrite (pow2_add 53 e), (pow2_Z 53) by lia.
    unfold q in F1. nra. }
  pose proof (pow2_pos (E - 52)) as Pu.
  assert (Ee : (pow2 e == inject_Z (2 ^ (e - E + 52)) * pow2 (E - 52))%Q).
  { rewrite <- (pow2_Z (e - E + 52)) by lia. rewrite <- pow2_add.
    replace (e - E + 52 + (E - 52)) with e by lia. reflexivity. }
  assert (Es : (q / pow2 (E - 52) == inject_Z (n * 2 ^ (e - E + 52)))%Q).
  { unfold q. rewrite Ee, inject_Z_mult. field. lra. }
  rewrite (rne_comp _ _ Es), rne_Z. unfold q.
  rewrite inject_Z_mult, Ee. ring.
Qed.

Lemma RN_int (n : Z) : 0 <= n < 2 ^ 53 -> (RN (inject_Z n) == inject_Z n)%Q.
Proof.
  intros Hn. destruct (Z.eq_dec n 0) as [->|Hz]; [reflexivity|].
  assert (E : (inject_Z n == inject_Z n * pow2 0)%Q)
    by (change (pow2 0) with 1%Q; ring).
  rewrite (RN_comp _ _ E). rewrite RN_exact by lia. symmetry. exact E.
Qed.

Lemma RN_half (n : Z) :
  0 <= n < 2 ^ 52 -> (RN (inject_Z n + (1 # 2)) == inject_Z n + (1 # 2))%Q.
Proof.
  intros Hn.
  assert (E : (inject_Z n + (1 # 2) == inject_Z (2 * n + 1) * pow2 (-1))%Q).
  { change (pow2 (-1)) with (/ 2)%Q. rewrite inject_Z_plus, inject_Z_mult.
    change (inject_Z 2) with 2%Q. change (inject_Z 1) with 1%Q. field. }
  rewrite (RN_comp _ _ E). rewrite RN_exact; [symmetry; exact E|].
  change (2 ^ 53) with (2 * 2 ^ 52). lia.
Qed.

(** ** ByteHumanizer: unscaled counts and negative arguments *)

Lemma greatest_exponent_ge (x f : Q) (k : Z) :
  log_reduce x = (f, k) -> In_itv f F_itv ->
  Qfloor (logn x 1024) <= greatest_exponent k.
Proof.
  intros Hr Hf.
  assert (HM : In_itv (math_Log x) (ilog_reduced F_itv (pt (float64_of_int k)))).
  { unfold math_Log. rewrite Hr. apply In_ilog_reduced.
    - qlt_compute.
    - exact Hf.
    - apply In_pt. }
  assert (HL : In_itv (logn x 1024) (logn_itv_k k)).
  { unfold logn. apply In_idiv; [qlt_compute | exact HM | apply In_pt]. }
  destruct HL as [_ HL2].
  exact (Qfloor_resp_le _ _ HL2).
Qed.

Lemma check_low_exponents :
  forallb (fun k => if 9 <? k then true else greatest_exponent k <=? 0)
          exponents = true.
Proof. vm_compute. reflexivity. Qed.


Lemma check_upper_counts :
  forallb (fun v => scale_exponent v 1024 =? 0) upper_counts = true.
Proof. vm_compute. reflexivity. Qed.

(** The counts from 10 to 1023 are not scaled. *)
Lemma scale_exponent_unscaled (s : Z) :
  10 <= s <= 1023 -> scale_exponent s 1024 = 0.
Proof.
  intros Hs. destruct (Z.le_gt_cases s 724) as [Hlow|Hup].
  - pose proof (scale_exponent_bounds s ltac:(lia)) as [He0 _].
    destruct (float64_of_int_bounds 10 s 724 ltac:(lia)) as [X1 X2].
    assert (A1 : (10 <= RN (inject_Z 10))%Q) by qle_compute.
    assert (A2 : (RN (inject_Z 724) <= 724)%Q) by qle_compute.
    assert (A3 : (724 <= inject_Z (2 ^ 64))%Q) by qle_compute.
    assert (A4 : (724 < HSqrt2 * pow2 10)%Q) by qlt_compute.
    assert (P : (0 < HSqrt2)%Q) by qlt_compute.
    assert (He : scale_exponent s 1024 = Qfloor (logn (float64_of_int s) 1024)).
    { unfold scale_exponent, math_Floor. apply Qfloor_Z. }
    rewrite He in *.
    set (x := float64_of_int s) in *.
    destruct (log_reduce x) as [f k] eqn:Hr.
    destruct (log_reduce_exponent x f k ltac:(lra) ltac:(lra) Hr) as [Hf Hk].
    pose proof (log_reduce_spec x ltac:(lra)) as Hspec. rewrite Hr in Hspec.
    destruct Hspec as [_ [Xlo _]].
    assert (Hk9 : k <= 9).
    { destruct (Z.lt_ge_cases k 10) as [|C]; [lia|].
      apply pow2_mono in C. nra. }
    pose proof (forallb_exponents _ k check_low_exponents Hk) as Hc.
    cbv beta in Hc.
    destruct (9 <? k) eqn:E9; [apply Z.ltb_lt in E9; lia|].
    apply Z.leb_le in Hc.
    pose proof (greatest_exponent_ge x f k Hr Hf) as Hge.
    pose proof (Z.le_trans _ _ _ Hge Hc) as H0.
    apply Z.le_antisymm; [exact H0 | exact He0].
  - pose proof check_upper_counts as Hc. rewrite forallb_forall in Hc.
    apply Z.eqb_eq. apply Hc. unfold upper_counts.
    rewrite <- (Z2Nat.id s) by lia. apply in_map. apply in_seq. lia.
Qed.

(** Without scaling the value of [humanateBytes] is the count itself. *)
Lemma scaled_value_exact (s : Z) :
  0 <= s < 2 ^ 48 ->
  (scaled_value (float64_of_int s) (math_Pow 1024 0) == inject_Z s)%Q.
Proof.
  intros Hs. change (2 ^ 48) with 281474976710656 in Hs.
  assert (B53 : 2 ^ 53 = 9007199254740992) by reflexivity.
  assert (B52 : 2 ^ 52 = 4503599627370496) by reflexivity.
  assert (P1 : (math_Pow 1024 0 == 1)%Q) by (vm_compute; reflexivity).
  assert (X : (float64_of_int s == inject_Z s)%Q).
  { unfold float64_of_int. apply RN_int. lia. }
  unfold scaled_value.
  assert (D : (fdiv (float64_of_int s) (math_Pow 1024 0) == inject_Z s)%Q).
  { unfold fdiv.
    assert (E : (float64_of_int s / math_Pow 1024 0 == inject_Z s)%Q).
    { rewrite P1, X. field. }
    rewrite (RN_comp _ _ E). apply RN_int. lia. }
  assert (M : (fmul (fdiv (float64_of_int s) (math_Pow 1024 0)) 10
               == inject_Z (s * 10))%Q).
  { unfold fmul.
    assert (E : (fdiv (float64_of_int s) (math_Pow 1024 0) * 10
                 == inject_Z (s * 10))%Q).
    { rewrite D, inject_Z_mult. reflexivity. }
    rewrite (RN_comp _ _ E). apply RN_int. lia. }
  assert (A : (fadd (fmul (fdiv (float64_of_int s) (math_Pow 1024 0)) 10) (1 # 2)
               == inject_Z (s * 10) + (1 # 2))%Q).
  { unfold fadd.
    assert (E : (fmul (fdiv (float64_of_int s) (math_Pow 1024 0)) 10 + (1 # 2)
                 == inject_Z (s * 10) + (1 # 2))%Q) by (rewrite M; reflexivity).
    rewrite (RN_comp _ _ E). apply RN_half. lia. }
  assert (F : Qfloor (fadd (fmul (fdiv (float64_of_int s) (math_Pow 1024 0)) 10)
                           (1 # 2)) = s * 10).
  { rewrite (Qfloor_comp _ _ A). apply Qfloor_unique; lra. }
  unfold math_Floor. rewrite F. unfold fdiv.
  assert (E : (inject_Z (s * 10) / 10 == inject_Z s)%Q).
  { rewrite inject_Z_mult. change (inject_Z 10) with 10%Q. field. }
  rewrite (RN_comp _ _ E). apply RN_int. lia.
Qed.

(** X20: A count from 10 to 1023 is printed as it is, without a suffix. *)
Theorem humanizeBytes_unscaled (v : Z) :
  10 <= v <= 1023 -> humanizeBytes v = Some (Itoa v).
Proof.
  intros Hv. unfold humanizeBytes.
  destruct (v =? 0) eqn:E0; [apply Z.eqb_eq in E0; lia|].
  assert (Eu : uint64_of_int64 v = v).
  { unfold uint64_of_int64. apply Z.mod_small.
    change (2 ^ 64) with 18446744073709551616. lia. }
  rewrite Eu. unfold humanateBytes.
  destruct (v <? 10) eqn:E10; [apply Z.ltb_lt in E10; lia|]. cbv zeta.
  rewrite (scale_exponent_unscaled v Hv).
  change (index_sizes sizes_1024 0) with (Some "").
  pose proof (scaled_value_exact v
                ltac:(change (2 ^ 48) with 281474976710656; lia)) as Hval.
  set (val := scaled_value (float64_of_int v) (math_Pow 1024 0)) in *.
  assert (H10 : (10 <= val)%Q).
  { rewrite Hval. change 10%Q with (inject_Z 10). rewrite <- Zle_Qle. lia. }
  rewrite (Qltb_ge val 10 H10).
  rewrite (Sprintf_f_0_whole val) by lra.
  rewrite (rne_comp _ _ Hval), rne_Z.
  rewrite (TrimSuffix_digits _ (all_digits_FormatUint v)).
  rewrite app_empty_r'. unfold Itoa.
  destruct (v <? 0) eqn:En; [apply Z.ltb_lt in En; lia | reflexivity].
Qed.

Lemma humanizeBytes_unscaled_witness : humanizeBytes 1023 = Some (Itoa 1023).
Proof. apply (humanizeBytes_unscaled 1023). lia. Defined.




(** ** Sentinels and numerals *)

Lemma length_strings_Join_two (x y : string) (l : list string) (sep : string) :
  (String.length sep <= String.length (strings_Join (x :: y :: l) sep))%nat.
Proof. rewrite strings_Join_cons, !length_app. lia. Qed.

(** X4: [naStrings] gives the "not applicable" sentinel for the empty slice
    and joins the strings of any other slice with commas; it returns the
    empty string for one slice only, the slice of one empty string. *)
Theorem naStrings_empty (ss : list string) :
  naStrings [] = NAValue
  /\ (forall x, naStrings [x] = x)
  /\ (forall x y l, naStrings (x :: y :: l) = x +:+ "," +:+ naStrings (y :: l))
  /\ (naStrings ss = "" <-> ss = [""]).
Proof.
  split; [reflexivity|]. split; [reflexivity|]. split; [reflexivity|].
  split.
  - destruct ss as [|x [|y l]]; unfold naStrings.
    + discriminate.
    + cbn [strings_Join]. intros ->. reflexivity.
    + intros H. pose proof (length_strings_Join_two x y l ",") as Hl.
      rewrite H in Hl. cbn in Hl. lia.
  - intros ->. reflexivity.
Qed.

Lemma FormatUint_first_digit (n : Z) :
  exists c s, FormatUint n = String c s /\ 48 <= byte_val c <= 57.
Proof.
  pose proof (all_digits_FormatUint n) as Hd.
  pose proof (FormatUint_not_empty n) as Hn.
  destruct (FormatUint n) as [|c s]; [discriminate Hn|].
  exists c, s. split; [reflexivity|]. cbn [all_digits] in Hd.
  apply andb_true_iff in Hd as [Hd _]. apply andb_true_iff in Hd as [H1 H2].
  apply Z.leb_le in H1, H2. lia.
Qed.

Lemma Itoa_first (n : Z) :
  exists c s, Itoa n = String c s
              /\ (n < 0 -> c = "-"%char /\ s = FormatUint (- n))
              /\ (0 <= n -> 48 <= byte_val c <= 57).
Proof.
  unfold Itoa. destruct (n <? 0) eqn:E.
  - apply Z.ltb_lt in E. exists "-"%char, (FormatUint (- n)).
    split; [reflexivity|]. split; [intros _; split; reflexivity | lia].
  - apply Z.ltb_ge in E. destruct (FormatUint_first_digit n) as (c & s & Hc & Hb).
    exists c, s. split; [exact Hc|]. split; [lia | intros _; exact Hb].
Qed.

Lemma append_percent_inj (a b : string) : a +:+ "%" = b +:+ "%" -> a = b.
Proof.
  revert b. induction a as [|c a IH]; intros [|d b] H.
  - reflexivity.
  - rewrite app_nil, app_cons in H. injection H as _ H.
    destruct b; discriminate H.
  - rewrite app_nil, app_cons in H. injection H as _ H.
    destruct a; discriminate H.
  - rewrite !app_cons in H. injection H as -> H. f_equal. apply IH. exact H.
Qed.

Lemma Itoa_inj (n m : Z) : Itoa n = Itoa m -> n = m.
Proof.
  intros E.
  destruct (Itoa_first n) as (c & s & Hn & Nn & Pn).
  destruct (Itoa_first m) as (d & u & Hm & Nm & Pm).
  rewrite Hn, Hm in E. injection E as -> ->.
  destruct (Z.lt_ge_cases n 0) as [Ln|Ln], (Z.lt_ge_cases m 0) as [Lm|Lm].
  - destruct (Nn Ln) as [_ Sn]. destruct (Nm Lm) as [_ Sm].
    assert (Ev : digits_value (FormatUint (- n)) 0 = digits_value (FormatUint (- m)) 0)
      by (rewrite <- Sn, <- Sm; reflexivity).
    rewrite !digits_value_FormatUint in Ev by lia. lia.
  - destruct (Nn Ln) as [Cn _]. specialize (Pm Lm). rewrite Cn in Pm.
    change (byte_val "-"%char) with 45 in Pm. lia.
  - destruct (Nm Lm) as [Cm _]. specialize (Pn Ln). rewrite Cm in Pn.
    change (byte_val "-"%char) with 45 in Pn. lia.
  - assert (Ev : digits_value (Itoa n) 0 = digits_value (Itoa m) 0)
      by (rewrite Hn, Hm; reflexivity).
    unfold Itoa in Ev.
    destruct (n <? 0) eqn:E1; [apply Z.ltb_lt in E1; lia|].
    destruct (m <? 0) eqn:E2; [apply Z.ltb_lt in E2; lia|].
    rewrite !digits_value_FormatUint in Ev by lia. exact Ev.
Qed.

(** X13: Different integers are printed differently, by [IntToStr] and by
    [PrintPerc]. *)
Theorem IntToStr_injective (n m : Z) :
  n <> m -> IntToStr n <> IntToStr m /\ PrintPerc n <> PrintPerc m.
Proof.
  intros Hne. split; intros E; apply Hne; apply Itoa_inj.
  - exact E.
  - apply append_percent_inj. exact E.
Qed.

Lemma IntToStr_injective_witness :
  IntToStr (-7) <> IntToStr 7 /\ PrintPerc (-7) <> PrintPerc 7.
Proof. apply (IntToStr_injective (-7) 7). lia. Defined.
